(** * Request-time engine of the video web server

    Shallow embedding of [super_badass_videos_web_server.py]: the token map
    [valid_tokens], the listing cache [video_list_cache], the connection
    registry [active_connections] and the range arithmetic of the
    [/video/<path>] route.

    Conventions.
    - [time.time()] readings are rationals ([Q]); float rounding is not
      modelled.  Every function that reads the clock takes the reading as an
      argument, one argument per call of [time.time()] in the source.
    - Python [str] values are [string]s: a character is its code point,
      which is below 256.  A header value is such a string, and so are the
      names and paths of the model; a name with a character from 256 on is
      not one of them.
    - [os.path] is [posixpath]: the separator is [/] and a backslash is an
      ordinary character of a name.  [ntpath], which [os.path] is on
      Windows, is not modelled.
    - Python dictionaries whose order is irrelevant are [gmap]s; the
      connection registry is an insertion-ordered association list, because
      [sorted] is stable and ties are broken by insertion order.
    - A call that raises, or that never returns, has the result [None] or a
      constructor of its own ([Raised]).
    - Reads of an existing file succeed: the [IOError] branch of
      [generate_full] is not modelled. *)

From Stdlib Require Import QArith Lqa ZArith Lia String Ascii List.
From Stdlib Require Import DecimalString DecimalN DecimalZ Sorted.
From stdpp Require Import gmap strings list fin_maps.

Local Open Scope string_scope.

(** ** Comparisons on clock readings *)

(** Python's [a > b] on numbers. *)
Definition Qgtb (a b : Q) : bool := negb (Qle_bool a b).

(** ** The token map *)

Module Tokens.

(** [TOKEN_USED_CLEANUP_TIME = 3600]. *)
Definition TOKEN_USED_CLEANUP_TIME : Q := 3600.

(** The structured record [{'expire_time': ..., 'used_time': ... or None}]. *)
Record token_dict := TokenDict { expire_time : Q; used_time : option Q }.

(** A value of [valid_tokens]: the source branches on
    [isinstance(token_info, (int, float))] and [isinstance(token_info, dict)]. *)
Inductive token_info :=
| TNum (v : Q)
| TDict (d : token_dict).

(** The test of [clean_expired_tokens] that puts a token on the [expired]
    list. *)
Definition is_expired (current_time : Q) (ti : token_info) : bool :=
  match ti with
  | TNum v => Qgtb v 0 && Qgtb current_time v
  | TDict d =>
      match used_time d with
      | None => Qgtb (expire_time d) 0 && Qgtb current_time (expire_time d)
      | Some u => Qgtb current_time (u + TOKEN_USED_CLEANUP_TIME)
      end
  end.

Definition expired_tokens (current_time : Q) (valid_tokens : gmap string token_info)
  : list string :=
  (filter (fun kv => is_expired current_time kv.2 = true) (map_to_list valid_tokens)).*1.

(** [clean_expired_tokens()]: the map after the deletions and [len(expired)]. *)
Definition clean_expired_tokens (current_time : Q) (valid_tokens : gmap string token_info)
  : gmap string token_info * nat :=
  let expired := expired_tokens current_time valid_tokens in
  (foldl (fun m token => delete token m) valid_tokens expired, length expired).

(** [is_token_valid(token)]. *)
Definition is_token_valid (token : string) (current_time : Q)
    (valid_tokens : gmap string token_info) : bool :=
  if decide (token = "") then false else
  match valid_tokens !! token with
  | None => false
  | Some (TNum v) =>
      if Qeq_bool v (-1) then true else Qgtb v current_time
  | Some (TDict d) =>
      match used_time d with
      | None => Qgtb (expire_time d) current_time
      | Some u => Qle_bool current_time (u + TOKEN_USED_CLEANUP_TIME)
      end
  end.

(** What the [/] route answers as far as the token is concerned: the page
    (with its [is_secret_mode] flag), the alert "link no longer valid, it
    cannot be used twice", or the alert "link no longer valid". *)
Inductive index_response :=
| Page (is_secret_mode : bool)
| AlertReused
| AlertInvalid.

(** The token part of [index()].  [t_sweep] is the clock reading inside
    [clean_expired_tokens()], [t_use] the one stored into ['used_time']. *)
Definition index (secret_token : string) (t_sweep t_use : Q)
    (valid_tokens : gmap string token_info)
  : index_response * gmap string token_info :=
  if decide (secret_token = "") then (Page false, valid_tokens) else
  let vt := (clean_expired_tokens t_sweep valid_tokens).1 in
  match vt !! secret_token with
  | Some (TNum v) =>
      if Qgtb v 0 then (Page true, <[secret_token := TNum (-1)]> vt)
      else (AlertReused, vt)
  | Some (TDict d) =>
      match used_time d with
      | None =>
          (Page true,
           <[secret_token := TDict (TokenDict (expire_time d) (Some t_use))]> vt)
      | Some _ => (AlertReused, vt)
      end
  | None => (AlertInvalid, vt)
  end.

(** [verify_secret()]: [SECRET_PASSWORD] is the password of the configuration
    file, [token] the draw of [secrets.token_urlsafe(32)], [now] the clock
    reading.  Returns the token of the JSON answer ([None] for
    [{'success': False}]). *)
Definition verify_secret (SECRET_PASSWORD password token : string) (now : Q)
    (valid_tokens : gmap string token_info)
  : option string * gmap string token_info :=
  if decide (password = SECRET_PASSWORD)
  then (Some token,
        <[token := TDict (TokenDict (now + 300) None)]> valid_tokens)
  else (None, valid_tokens).

(** [invalidate_token()]. *)
Definition invalidate_token (secret_token : string)
    (valid_tokens : gmap string token_info) : gmap string token_info :=
  if decide (secret_token = "") then valid_tokens
  else match valid_tokens !! secret_token with
       | Some _ => delete secret_token valid_tokens
       | None => valid_tokens
       end.

(** The calls that change [valid_tokens]: [/verify-secret], [/] with a
    [secretnumber], [/invalidate-token], and the pass of the maintenance
    thread. *)
Inductive token_op :=
| Issue (password token : string) (now : Q)
| Consume (secret_token : string) (t_sweep t_use : Q)
| Invalidate (secret_token : string)
| Sweep (now : Q).

Definition apply_op (SECRET_PASSWORD : string) (vt : gmap string token_info)
    (op : token_op) : gmap string token_info :=
  match op with
  | Issue password token now => (verify_secret SECRET_PASSWORD password token now vt).2
  | Consume secret_token t_sweep t_use => (index secret_token t_sweep t_use vt).2
  | Invalidate secret_token => invalidate_token secret_token vt
  | Sweep now => (clean_expired_tokens now vt).1
  end.

(** The map after a history of calls, starting from [valid_tokens = {}]. *)
Definition run_ops (SECRET_PASSWORD : string) (ops : list token_op)
  : gmap string token_info :=
  foldl (apply_op SECRET_PASSWORD) ∅ ops.

(** Every token of the running server is a structured record; [P] is
    what is known of the records. *)
Definition all_records (P : token_dict -> Prop)
    (vt : gmap string token_info) : Prop :=
  forall k ti, vt !! k = Some ti -> exists d, ti = TDict d /\ P d.

(** [P] holds of the records [/verify-secret] stores. *)
Definition issued_with (P : token_dict -> Prop) (op : token_op) : Prop :=
  match op with
  | Issue _ _ now => P (TokenDict (now + 300) None)
  | _ => True
  end.

(** Passes of the maintenance thread at the clock readings [times]. *)
Definition sweep_all (times : list Q) (vt : gmap string token_info)
  : gmap string token_info :=
  foldl (fun m now => (clean_expired_tokens now m).1) vt times.

(** The clock of the server is Unix time: no [/verify-secret] is served
    before the epoch. *)
Definition after_epoch (op : token_op) : Prop :=
  match op with
  | Issue _ _ now => (0 <= now)%Q
  | _ => True
  end.

(** [op] does not store a new token under [token]. *)
Definition issues (token : string) (op : token_op) : bool :=
  match op with
  | Issue _ token' _ => String.eqb token' token
  | _ => false
  end.

(** [op] is a call made with [token]; and the clock reading of the sweep a
    call runs (a request to [/] with a token, a maintenance pass). *)
Definition touches (token : string) (op : token_op) : bool :=
  match op with
  | Issue _ token' _ => String.eqb token' token
  | Consume secret_token _ _ => String.eqb secret_token token
  | Invalidate secret_token => String.eqb secret_token token
  | Sweep _ => false
  end.

Definition sweep_clock (op : token_op) : option Q :=
  match op with
  | Consume _ t_sweep _ => Some t_sweep
  | Sweep now => Some now
  | _ => None
  end.

End Tokens.

(** ** Overlapping requests to [/] on one token

    The request threads of the server run [index()] without any lock around
    [valid_tokens].  A thread is followed through four program points; one
    step runs the statements between two points without interruption, so
    every schedule of this model is a schedule of the program (the program
    has more, since a thread may also be preempted inside a step). *)

Module Race.
Import Tokens.

Inductive pc :=
| AtSweep      (* before [if secret_token:] and [clean_expired_tokens()] *)
| AtLookup     (* before [if secret_token in valid_tokens:] *)
| AtMarkNum    (* before [valid_tokens[secret_token] = -1] *)
| AtMarkDict   (* before [valid_tokens[secret_token]['used_time'] = time.time()] *)
| Done (r : index_response)
| Raised.      (* KeyError or TypeError out of the handler *)

(** One step of a thread serving [secret_token]; [now] is the clock reading
    taken during the step, if it takes one. *)
Definition thread_step (secret_token : string) (now : Q) (p : pc)
    (valid_tokens : gmap string token_info) : pc * gmap string token_info :=
  match p with
  | AtSweep =>
      if decide (secret_token = "") then (Done (Page false), valid_tokens)
      else (AtLookup, (clean_expired_tokens now valid_tokens).1)
  | AtLookup =>
      match valid_tokens !! secret_token with
      | Some (TNum v) =>
          if Qgtb v 0 then (AtMarkNum, valid_tokens)
          else (Done AlertReused, valid_tokens)
      | Some (TDict d) =>
          match used_time d with
          | None => (AtMarkDict, valid_tokens)
          | Some _ => (Done AlertReused, valid_tokens)
          end
      | None => (Done AlertInvalid, valid_tokens)
      end
  | AtMarkNum => (Done (Page true), <[secret_token := TNum (-1)]> valid_tokens)
  | AtMarkDict =>
      match valid_tokens !! secret_token with
      | Some (TDict d) =>
          (Done (Page true),
           <[secret_token := TDict (TokenDict (expire_time d) (Some now))]> valid_tokens)
      | _ => (Raised, valid_tokens)
      end
  | Done r => (Done r, valid_tokens)
  | Raised => (Raised, valid_tokens)
  end.

(** The threads of a configuration all serve the same token. *)
Record config := Config {
  threads : list pc;
  store : gmap string token_info
}.

(** The scheduler lets thread [tid] take one step at clock reading [now]. *)
Definition sched_step (secret_token : string) (c : config) (ev : nat * Q) : config :=
  match threads c !! ev.1 with
  | Some p =>
      let r := thread_step secret_token ev.2 p (store c) in
      Config (<[ev.1 := r.1]> (threads c)) r.2
  | None => c
  end.

Definition run (secret_token : string) (schedule : list (nat * Q)) (c : config) : config :=
  foldl (sched_step secret_token) c schedule.

(** Two requests whose steps alternate: both sweep and look the token up at
    time 1, then both store their use at time 2. *)
Definition overlapping : list (nat * Q) :=
  [(0%nat, 1%Q); (0%nat, 1%Q); (1%nat, 1%Q); (1%nat, 1%Q); (0%nat, 2%Q); (1%nat, 2%Q)].

(** [n] requests that have just arrived. *)
Definition arrivals (n : nat) (valid_tokens : gmap string token_info) : config :=
  Config (replicate n AtSweep) valid_tokens.

Definition is_done (r : index_response) (p : pc) : bool :=
  match p, r with
  | Done (Page a), Page b => eqb a b
  | Done AlertReused, AlertReused => true
  | Done AlertInvalid, AlertInvalid => true
  | _, _ => false
  end.

(** How many threads ended with the answer [r]. *)
Definition answered (r : index_response) (c : config) : nat :=
  length (List.filter (is_done r) (threads c)).

End Race.

(** [index()] called once per clock pair, one request after the other. *)
Fixpoint index_sequence (secret_token : string) (clocks : list (Q * Q))
    (valid_tokens : gmap string Tokens.token_info) : list Tokens.index_response :=
  match clocks with
  | [] => []
  | (t_sweep, t_use) :: rest =>
      let r := Tokens.index secret_token t_sweep t_use valid_tokens in
      r.1 :: index_sequence secret_token rest r.2
  end.

(** The schedule that serves the requests one after the other: request
    [i] takes its three steps, with its own clock readings, before request
    [i + 1] takes its first. *)
Fixpoint one_by_one (i : nat) (clocks : list (Q * Q)) : list (nat * Q) :=
  match clocks with
  | [] => []
  | (t_sweep, t_use) :: rest =>
      (i, t_sweep) :: (i, t_sweep) :: (i, t_use) :: one_by_one (S i) rest
  end.

(** ** The string methods the handlers use *)

Module PyStr.

(** [str.lower()] of a string of characters below 256: the letters A-Z
    and the letters 192-222 of Latin-1, the multiplication sign 215 apart,
    are 32 below their lower case; every other character is its own. *)
Definition lower_char (c : ascii) : ascii :=
  let n := nat_of_ascii c in
  if ((65 <=? n) && (n <=? 90)
      || (192 <=? n) && (n <=? 222) && negb (n =? 215))%nat
  then ascii_of_nat (n + 32) else c.

Fixpoint lower (s : string) : string :=
  match s with
  | EmptyString => EmptyString
  | String c r => String (lower_char c) (lower r)
  end.

(** [s.isascii()]: every character is below 128. *)
Fixpoint isascii (s : string) : bool :=
  match s with
  | EmptyString => true
  | String c r => (nat_of_ascii c <? 128)%nat && isascii r
  end.

(** [s.endswith(suffix)]. *)
Definition endswith (s suffix : string) : bool :=
  let n := String.length s in
  let k := String.length suffix in
  (k <=? n)%nat && String.eqb (substring (n - k) k s) suffix.

(** [s.endswith((e1, e2, ...))] with a tuple of suffixes. *)
Definition endswith_any (s : string) (suffixes : list string) : bool :=
  existsb (endswith s) suffixes.

(** [s.replace(old, new)] for a non-empty [old]: the occurrences are taken
    from left to right and do not overlap.  [skip] counts the characters of
    an occurrence that are still to be dropped. *)
Fixpoint replace_from (old new : string) (skip : nat) (s : string) : string :=
  match s with
  | EmptyString => EmptyString
  | String c r =>
      match skip with
      | S k => replace_from old new k r
      | O =>
          if String.prefix old s
          then new ++ replace_from old new (String.length old - 1) r
          else String c (replace_from old new 0 r)
      end
  end.

Definition replace (old new s : string) : string := replace_from old new 0 s.

(** [s.split(sep)] for a separator of one character: the pieces between the
    separators, so one piece more than there are separators. *)
Fixpoint split (sep : ascii) (s : string) : list string :=
  match s with
  | EmptyString => [EmptyString]
  | String c r =>
      if Ascii.eqb c sep then EmptyString :: split sep r
      else match split sep r with
           | piece :: pieces => String c piece :: pieces
           | [] => [String c EmptyString]
           end
  end.

(** The characters [int()] skips around a number.  A header value is a
    string of characters below 256.  Below 127 [int()] skips tab, line
    feed, vertical tab, form feed, carriage return and the space, and not
    the four separators 28-31; from 127 on it skips the white space of
    Unicode, which is the next line character 133 and the no-break space
    160. *)
Definition is_space (c : ascii) : bool :=
  let n := nat_of_ascii c in
  ((9 <=? n) && (n <=? 13) || (n =? 32) || (n =? 133) || (n =? 160))%nat.

Definition is_digit (c : ascii) : bool :=
  let n := nat_of_ascii c in (48 <=? n)%nat && (n <=? 57)%nat.

Fixpoint lstrip (s : string) : string :=
  match s with
  | String c r => if is_space c then lstrip r else s
  | EmptyString => EmptyString
  end.

Fixpoint rstrip (s : string) : string :=
  match s with
  | String c r =>
      match rstrip r with
      | EmptyString => if is_space c then EmptyString else String c EmptyString
      | r' => String c r'
      end
  | EmptyString => EmptyString
  end.

Definition strip (s : string) : string := rstrip (lstrip s).

(** An underscore of an integer literal stands between two digits.
    [prev_digit] tells whether the character before was a digit; the result
    is the literal without its underscores. *)
Fixpoint drop_underscores (prev_digit : bool) (s : string) : option string :=
  match s with
  | EmptyString => if prev_digit then Some EmptyString else None
  | String c r =>
      if Ascii.eqb c "_"%char
      then if prev_digit then drop_underscores false r else None
      else String c <$> drop_underscores (is_digit c) r
  end.

(** The value of a run of decimal digits; [None] stands for [ValueError]. *)
Definition digits_value (s : string) : option Z :=
  d ← drop_underscores false s;
  u ← NilEmpty.uint_of_string d;
  Some (Z.of_uint u).

(** [int(s)] in base ten, for a string of characters below 256; [None]
    stands for [ValueError].  The interpreter also refuses a number of more
    than 4300 digits, which is not part of this function: a statement that
    depends on it bounds the length of the string. *)
Definition int (s : string) : option Z :=
  match strip s with
  | String "+" r => digits_value r
  | String "-" r => Z.opp <$> digits_value r
  | t => digits_value t
  end.

(** [str(n)] and [f'{n}'] for an integer. *)
Definition str (n : Z) : string := NilZero.string_of_int (Z.to_int n).

(** No character of [s] is [c]. *)
Fixpoint without (c : ascii) (s : string) : bool :=
  match s with
  | EmptyString => true
  | String x r => negb (Ascii.eqb x c) && without c r
  end.

(** Every character of [s] is a decimal digit. *)
Fixpoint digits (s : string) : bool :=
  match s with
  | EmptyString => true
  | String x r => is_digit x && digits r
  end.

End PyStr.

(** ** The file system the handlers look at

    A tree of directories and regular files.  Paths are resolved as POSIX
    does, component by component from the root directory (the roots of the
    catalogs are absolute paths); there are no symbolic links. *)

Module FS.

#[warnings="-register-all"]
Inductive node :=
| File (content : list Byte.byte)
| Dir (entries : list (string * node)).

Fixpoint entry (name : string) (es : list (string * node)) : option node :=
  match es with
  | [] => None
  | (n, x) :: rest => if String.eqb n name then Some x else entry name rest
  end.

(** Follow the components of a path; [ancestors] are the directories above
    [cur], nearest first.  The parent of the root is the root. *)
Fixpoint walk_path (ancestors : list node) (cur : node) (comps : list string)
  : option node :=
  match comps with
  | [] => Some cur
  | c :: rest =>
      match cur with
      | File _ => None
      | Dir es =>
          if String.eqb c "" || String.eqb c "." then walk_path ancestors cur rest
          else if String.eqb c ".."
          then match ancestors with
               | [] => walk_path [] cur rest
               | p :: up => walk_path up p rest
               end
          else match entry c es with
               | Some x => walk_path (cur :: ancestors) x rest
               | None => None
               end
      end
  end.

Definition resolve (root : node) (path : string) : option node :=
  if String.eqb path "" then None
  else walk_path [] root (PyStr.split "/" path).

(** [os.path.isfile], [os.path.getsize] and the bytes [open(path, 'rb')]
    reads; [os.path.exists(path)] is [resolve root path <> None]. *)
Definition isfile (root : node) (path : string) : bool :=
  match resolve root path with Some (File _) => true | _ => false end.

Definition read (root : node) (path : string) : list Byte.byte :=
  match resolve root path with Some (File content) => content | _ => [] end.

Definition getsize (root : node) (path : string) : Z :=
  Z.of_nat (length (read root path)).

(** [os.path.join(a, b)] of [posixpath]. *)
Definition join (a b : string) : string :=
  if String.prefix "/" b then b
  else if String.eqb a "" || PyStr.endswith a "/" then a ++ b
  else a ++ "/" ++ b.

(** [os.path.normpath] of an absolute path, as the list of its components. *)
Fixpoint norm_components (acc : list string) (comps : list string) : list string :=
  match comps with
  | [] => rev acc
  | c :: rest =>
      if String.eqb c "" || String.eqb c "." then norm_components acc rest
      else if String.eqb c ".." then norm_components (tail acc) rest
      else norm_components (c :: acc) rest
  end.

Definition normpath (path : string) : list string :=
  norm_components [] (PyStr.split "/" path).

(** [path] names the directory [root] or something below it. *)
Definition inside (root path : string) : bool :=
  let r := normpath root in
  bool_decide (take (length r) (normpath path) = r).

(** The names of a directory that are not directories, and the relative
    name of a subdirectory, as [os.path.relpath(root, video_root)] gives it
    for the directories [os.walk] visits. *)
Definition nondirs (es : list (string * node)) : list string :=
  flat_map (fun e => match e.2 with File _ => [e.1] | Dir _ => [] end) es.

Definition child_rel (rel_dir name : string) : string :=
  if String.eqb rel_dir "." then name else rel_dir ++ "/" ++ name.

(** [os.walk(top)], top down: for every directory its name relative to
    [top] and its files. *)
Fixpoint walk (rel_dir : string) (n : node) : list (string * list string) :=
  match n with
  | File _ => []
  | Dir es =>
      (rel_dir, nondirs es) ::
      flat_map (fun e =>
                  match e.2 with
                  | Dir _ => walk (child_rel rel_dir e.1) e.2
                  | File _ => []
                  end) es
  end.




(** Induction over a tree: a directory has the property when its entries
    have it. *)
Fixpoint node_induction (P : node -> Prop)
    (HF : forall content, P (File content))
    (HD : forall es, Forall (fun e => P e.2) es -> P (Dir es))
    (n : node) : P n :=
  match n with
  | File content => HF content
  | Dir es =>
      HD es ((fix go (l : list (string * node)) : Forall (fun e => P e.2) l :=
                match l with
                | [] => List.Forall_nil _
                | e :: rest =>
                    List.Forall_cons _ e rest (node_induction P HF HD e.2) (go rest)
                end) es)
  end.

(** Every name in the tree is made of ASCII characters. *)
Fixpoint ascii_names (n : node) : bool :=
  match n with
  | File _ => true
  | Dir es => forallb (fun e => PyStr.isascii e.1 && ascii_names e.2) es
  end.

End FS.

(** The settings read from [config.ini]. *)
Record settings := Settings {
  VIDEO_ROOT : string;
  SECRET_VIDEO_ROOT : string;
  SECRET_PASSWORD : string
}.

(** [SECRET_VIDEO_ROOT if is_secret else VIDEO_ROOT]. *)
Definition video_root (cfg : settings) (is_secret : bool) : string :=
  if is_secret then SECRET_VIDEO_ROOT cfg else VIDEO_ROOT cfg.

(** ** The listing cache *)

Module Catalog.

(** [VIDEO_CACHE_EXPIRE = 300]. *)
Definition VIDEO_CACHE_EXPIRE : Q := 300.

Record cache_entry := CacheEntry { files : list string; last_update : Q }.

(** [video_list_cache], with its two keys. *)
Record video_list_cache := VideoListCache {
  normal : cache_entry;
  secret : cache_entry
}.

Definition initial_cache : video_list_cache :=
  VideoListCache (CacheEntry [] 0) (CacheEntry [] 0).

Definition cache_get (is_secret : bool) (c : video_list_cache) : cache_entry :=
  if is_secret then secret c else normal c.

Definition cache_set (is_secret : bool) (e : cache_entry) (c : video_list_cache)
  : video_list_cache :=
  if is_secret then VideoListCache (normal c) e else VideoListCache e (secret c).

Definition video_extensions : list string :=
  [".mp4"; ".webm"; ".ogg"; ".mkv"; ".rmvb"; ".avi"; ".flv"; ".mov"; ".wmv"].

(** The two nested loops over [os.walk(video_root)]. *)
Definition scan (top : FS.node) : list string :=
  flat_map
    (fun d =>
       flat_map
         (fun file =>
            if PyStr.endswith_any (PyStr.lower file) video_extensions
            then [PyStr.replace "\" "/"
                    (if String.eqb d.1 "." then file else FS.join d.1 file)]
            else [])
         d.2)
    (FS.walk "." top).

(** [get_video_list(is_secret, force_refresh)]: the list returned and the
    cache afterwards.  A list is truthy when it is not empty. *)
Definition get_video_list (cfg : settings) (fs : FS.node)
    (is_secret force_refresh : bool) (current_time : Q) (cache : video_list_cache)
  : list string * video_list_cache :=
  let cache_data := cache_get is_secret cache in
  if negb force_refresh
     && negb (bool_decide (files cache_data = []))
     && Qgtb VIDEO_CACHE_EXPIRE (current_time - last_update cache_data)
  then (files cache_data, cache)
  else
    match FS.resolve fs (video_root cfg is_secret) with
    | None => ([], cache_set is_secret (CacheEntry [] current_time) cache)
    | Some top =>
        let video_files := scan top in
        (video_files, cache_set is_secret (CacheEntry video_files current_time) cache)
    end.

(** What a call does to the entry of its own catalog. *)
Definition entry_step (cfg : settings) (fs : FS.node) (is_secret force : bool)
    (t : Q) (e : cache_entry) : list string * cache_entry :=
  if negb force && negb (bool_decide (files e = []))
     && Qgtb VIDEO_CACHE_EXPIRE (t - last_update e)
  then (files e, e)
  else match FS.resolve fs (video_root cfg is_secret) with
       | None => ([], CacheEntry [] t)
       | Some top => (scan top, CacheEntry (scan top) t)
       end.

End Catalog.

(** ** The [/video/<path>] route *)

Module Stream.

(** [CHUNK_SIZE = 65536]. *)
Definition CHUNK_SIZE : nat := Z.to_nat 65536.

Record response := Response {
  status : Z;
  mimetype : string;
  headers : list (string * string);
  body : list (list Byte.byte)
}.

Inductive video_result :=
| NotFound            (* ['File not found', 404] *)
| Answer (r : response)
| Raised.             (* ValueError or IndexError out of the handler *)

(** [os.path.splitext(filename)[1]]: the last dot of the last component and
    what follows it, unless only dots come before it. *)
Definition splitext_ext (filename : string) : string :=
  let base := List.last (PyStr.split "/" filename) "" in
  let pieces := PyStr.split "." base in
  if existsb (fun p => negb (String.eqb p "")) (removelast pieces)
  then "." ++ List.last pieces ""
  else "".

Definition mime_types : list (string * string) :=
  [(".mp4", "video/mp4"); (".webm", "video/webm"); (".ogg", "video/ogg");
   (".mkv", "video/x-matroska"); (".rmvb", "application/vnd.rn-realmedia-vbr");
   (".avi", "video/x-msvideo"); (".flv", "video/x-flv"); (".mov", "video/quicktime")].

Fixpoint dict_get (k : string) (d : list (string * string)) (default : string) : string :=
  match d with
  | [] => default
  | (k', v) :: rest => if String.eqb k' k then v else dict_get k rest default
  end.

(** The chunks [generate_full] yields: [f.read(CHUNK_SIZE)] until it returns
    nothing.  [fuel] bounds the number of reads. *)
Fixpoint read_chunks (fuel : nat) (data : list Byte.byte) : list (list Byte.byte) :=
  match fuel with
  | O => []
  | S fuel' =>
      match take CHUNK_SIZE data with
      | [] => []
      | chunk => chunk :: read_chunks fuel' (drop CHUNK_SIZE data)
      end
  end.

Definition generate_full (data : list Byte.byte) : list (list Byte.byte) :=
  read_chunks (length data) data.

(** [generate_range()]: the function has a docstring and no statement, so the
    call returns [None] and the response gets no body. *)
Definition generate_range : list (list Byte.byte) := [].

(** The two bounds read from the [Range] header, before clamping. *)
Definition parse_range (range_header : string) (size : Z) : option (Z * Z) :=
  match PyStr.split "-" (PyStr.replace "bytes=" "" range_header) with
  | m0 :: m1 :: _ =>
      byte1 ← (if String.eqb m0 "" then Some 0%Z else PyStr.int m0);
      byte2 ← (if String.eqb m1 "" then Some (size - 1)%Z else PyStr.int m1);
      Some (byte1, byte2)
  | _ => None
  end.

(** [video(filename)]; [range_header] is [request.headers.get('Range', None)]
    and [now] the clock reading of [is_token_valid]. *)
Definition video (cfg : settings) (fs : FS.node)
    (valid_tokens : gmap string Tokens.token_info) (now : Q)
    (secret_token filename : string) (range_header : option string)
  : video_result :=
  let is_secret := Tokens.is_token_valid secret_token now valid_tokens in
  let file_path := FS.join (video_root cfg is_secret) filename in
  if negb (FS.isfile fs file_path) then NotFound else
  let ext := PyStr.lower (splitext_ext filename) in
  let mimetype := dict_get ext mime_types "video/mp4" in
  let size := FS.getsize fs file_path in
  match range_header with
  | None | Some "" =>
      Answer (Response 200 mimetype
                [("Content-Length", PyStr.str size); ("Accept-Ranges", "bytes")]
                (generate_full (FS.read fs file_path)))
  | Some h =>
      match parse_range h size with
      | None => Raised
      | Some (b1, b2) =>
          let byte1 := Z.max 0 (Z.min b1 (size - 1)) in
          let byte2 := Z.max byte1 (Z.min b2 (size - 1)) in
          let length := (byte2 - byte1 + 1)%Z in
          Answer (Response 206 mimetype
                    [("Content-Range",
                      "bytes " ++ PyStr.str byte1 ++ "-" ++ PyStr.str byte2
                        ++ "/" ++ PyStr.str size);
                     ("Accept-Ranges", "bytes");
                     ("Content-Length", PyStr.str length)]
                    generate_range)
      end
  end.

(** The file the route looks at. *)
Definition file_path (cfg : settings) (vt : gmap string Tokens.token_info)
    (now : Q) (tok filename : string) : string :=
  FS.join (video_root cfg (Tokens.is_token_valid tok now vt)) filename.

(** The type the route answers with. *)
Definition mime_of (filename : string) : string :=
  dict_get (PyStr.lower (splitext_ext filename)) mime_types "video/mp4".

(** A catalog with a 1000-byte video, and a file next to the catalog. *)
Definition example_settings : settings := Settings "/srv/share" "/srv/secret" "pw".

Definition example_fs : FS.node :=
  FS.Dir [("srv", FS.Dir [("share", FS.Dir [("a.mp4", FS.File (repeat Byte.x41 1000))]);
                          ("key.txt", FS.File [Byte.x42])])].

End Stream.

(** ** The connection registry *)

Module Registry.

(** [MAX_CONNECTIONS = 100]. *)
Definition MAX_CONNECTIONS : nat := 100.

(** The record [track_connection] stores for a client address. *)
Record conn_info := ConnInfo {
  server_ip : string;
  client_port : string;
  interface : string;
  last_seen : Q;
  video : string;
  position : Z;
  duration : Z;
  bandwidth_down : Z;
  bandwidth_up : Z;
  connected_at : string
}.

(** [active_connections]: a dictionary in insertion order, one entry per key. *)
Abbreviation connections := (list (string * conn_info)).

Fixpoint get (k : string) (d : connections) : option conn_info :=
  match d with
  | [] => None
  | (k', v) :: rest => if String.eqb k' k then Some v else get k rest
  end.

(** [d[k] = v]: in place when the key is there, at the end otherwise. *)
Fixpoint set (k : string) (v : conn_info) (d : connections) : connections :=
  match d with
  | [] => [(k, v)]
  | (k', v') :: rest =>
      if String.eqb k' k then (k, v) :: rest else (k', v') :: set k v rest
  end.

(** [del d[k]]. *)
Fixpoint del (k : string) (d : connections) : connections :=
  match d with
  | [] => []
  | (k', v') :: rest =>
      if String.eqb k' k then rest else (k', v') :: del k rest
  end.

(** [sorted(d.items(), key=lambda x: x[1].get('last_seen', 0))].  The sort
    is stable: an entry goes before the entries after it that are not
    older. *)
Fixpoint insert_by_last_seen (x : string * conn_info) (l : connections) : connections :=
  match l with
  | [] => [x]
  | y :: rest =>
      if Qle_bool (last_seen x.2) (last_seen y.2) then x :: y :: rest
      else y :: insert_by_last_seen x rest
  end.

Definition sorted_by_last_seen (d : connections) : connections :=
  foldr insert_by_last_seen [] d.

(** The registry and its lock.  [connection_lock] is a [threading.Lock]: a
    thread that asks for it while it is held waits, also when the holder is
    the thread itself.  [None] stands for a request that waits for ever. *)
Record state := State {
  lock_held : bool;
  active_connections : connections
}.

Definition acquire (s : state) : option state :=
  if lock_held s then None else Some (State true (active_connections s)).

Definition release (s : state) : state := State false (active_connections s).

(** [cleanup_oldest_connections(count)]. *)
Definition cleanup_oldest_connections (count : nat) (s : state) : option state :=
  s1 ← acquire s;
  let d := active_connections s1 in
  let d' :=
    if (MAX_CONNECTIONS <=? length d)%nat
    then foldl (fun acc e => del e.1 acc) d (take count (sorted_by_last_seen d))
    else d in
  Some (release (State (lock_held s1) d')).

(** What [track_connection] reads from the request and its surroundings:
    [interface_name] is the answer of [get_interface_name(server_ip)],
    [now] the reading of [time.time()], [wall_clock] the formatted
    [datetime.now()]. *)
Record request := Request {
  path : string;
  remote_addr : string;
  remote_port : string;
  host : string;
  now : Q;
  interface_name : string;
  wall_clock : string
}.

Definition new_connection (r : request) : conn_info :=
  ConnInfo (hd "" (PyStr.split ":" (host r))) (remote_port r) (interface_name r)
           (now r) "未播放" 0 0 0 0 (wall_clock r).

Definition seen_again (r : request) (c : conn_info) : conn_info :=
  ConnInfo (server_ip c) (remote_port r) (interface c) (now r) (video c)
           (position c) (duration c) (bandwidth_down c) (bandwidth_up c)
           (connected_at c).

Definition is_in (k : string) (d : connections) : bool :=
  match get k d with Some _ => true | None => false end.

(** [track_connection()], run before every request. *)
Definition track_connection (r : request) (s : state) : option state :=
  if String.eqb (path r) "/monitor" || String.eqb (path r) "/monitor-data"
  then Some s
  else
    let client_ip := remote_addr r in
    s1 ← (if negb (is_in client_ip (active_connections s))
             && (MAX_CONNECTIONS <=? length (active_connections s))%nat
          then cleanup_oldest_connections 10 s
          else Some s);
    s2 ← acquire s1;
    s3 ← match get client_ip (active_connections s2) with
         | None =>
             s' ← (if (MAX_CONNECTIONS <=? length (active_connections s2))%nat
                   then cleanup_oldest_connections 10 s2
                   else Some s2);
             Some (State (lock_held s')
                         (set client_ip (new_connection r) (active_connections s')))
         | Some c =>
             Some (State (lock_held s2)
                         (set client_ip (seen_again r c) (active_connections s2)))
         end;
    Some (release s3).

(** The requests of a list, tracked one after the other. *)
Fixpoint track_all (rs : list request) (s : state) : option state :=
  match rs with
  | [] => Some s
  | r :: rest => s' ← track_connection r s; track_all rest s'
  end.

Definition initial : state := State false [].

(** [x] was seen no later than [y]. *)
Definition older (x y : string * conn_info) : Prop :=
  (last_seen x.2 <= last_seen y.2)%Q.

(** The entries [cleanup_oldest_connections(count)] deletes from a full
    registry. *)
Definition oldest (count : nat) d : connections := take count (sorted_by_last_seen d).

Definition registry_ok (s : state) : Prop :=
  lock_held s = false
  /\ NoDup (active_connections s).*1
  /\ (length (active_connections s) <= MAX_CONNECTIONS)%nat.

Definition tracked (r : request) : bool :=
  negb (String.eqb (path r) "/monitor" || String.eqb (path r) "/monitor-data").

(** A request from [addr] for the page [/], for the examples. *)
Definition request_from (addr : string) (t : Q) : request :=
  Request "/" addr "50000" "192.168.1.2:12345" t "eth0" "2024-01-01 00:00:00".

(** [CONNECTION_TIMEOUT = 30]. *)
Definition CONNECTION_TIMEOUT : Q := 30.

(** The JSON body of [/update-status]; a field is [None] when the key is
    missing.  Positions and durations are whole numbers here, as the fields
    of [conn_info] are. *)
Record status_report := StatusReport {
  report_video : option string;
  report_position : option Z;
  report_duration : option Z
}.

Definition reported (data : status_report) (now : Q) (c : conn_info) : conn_info :=
  ConnInfo (server_ip c) (client_port c) (interface c) now
           (default "未播放" (report_video data))
           (default 0%Z (report_position data))
           (default 0%Z (report_duration data))
           (bandwidth_down c) (bandwidth_up c) (connected_at c).

(** [update_status()] for the client [client_ip], as far as the registry
    goes (the answer is always [{'success': True}]). *)
Definition update_status (client_ip : string) (data : status_report) (now : Q)
    (s : state) : option state :=
  s1 ← acquire s;
  let d := active_connections s1 in
  let d' :=
    match get client_ip d with
    | Some c => set client_ip (reported data now c) d
    | None => d
    end in
  Some (release (State (lock_held s1) d')).

(** The addresses [cleanup_expired_connections] puts on its [expired] list. *)
Definition expired_connections (current_time : Q) (d : connections) : list string :=
  (filter (fun e => Qgtb (current_time - last_seen e.2) CONNECTION_TIMEOUT = true) d).*1.

(** The part of a cycle of [cleanup_expired_connections] that holds the
    lock: the registry afterwards and [connection_count], read before the
    deletions. *)
Definition evict_expired (current_time : Q) (s : state) : option (state * nat) :=
  s1 ← acquire s;
  let d := active_connections s1 in
  let connection_count := length d in
  let expired := expired_connections current_time d in
  let d' := foldl (fun acc ip => del ip acc) d expired in
  Some (release (State (lock_held s1) d'), connection_count).

(** The calls that change [active_connections]. *)
Inductive registry_op :=
| Track (r : request)
| Report (client_ip : string) (data : status_report) (now : Q)
| Evict (current_time : Q).

Definition apply_registry_op (op : registry_op) (s : state) : option state :=
  match op with
  | Track r => track_connection r s
  | Report client_ip data now => update_status client_ip data now s
  | Evict current_time => fst <$> evict_expired current_time s
  end.

Fixpoint run_registry (ops : list registry_op) (s : state) : option state :=
  match ops with
  | [] => Some s
  | op :: rest => s' ← apply_registry_op op s; run_registry rest s'
  end.

End Registry.

(** ** The maintenance thread *)

Module Maintenance.

(** The adaptive interval of [cleanup_expired_connections], in seconds. *)
Definition sleep_time (connection_count : nat) : Z :=
  if (50 <? connection_count)%nat then 30
  else if (10 <? connection_count)%nat then 60
  else if (0 <? connection_count)%nat then 120
  else 300.

(** One cycle of the loop when nothing raises: the registry and the token
    map afterwards, [cleaned_tokens] and the time to sleep.  [t_connections]
    is the clock reading of the cycle, [t_tokens] the one inside
    [clean_expired_tokens()]. *)
Definition cycle (t_connections t_tokens : Q) (s : Registry.state)
    (valid_tokens : gmap string Tokens.token_info)
  : option (Registry.state * gmap string Tokens.token_info * nat * Z) :=
  r ← Registry.evict_expired t_connections s;
  let swept := Tokens.clean_expired_tokens t_tokens valid_tokens in
  Some (r.1, swept.1, swept.2, sleep_time r.2).

End Maintenance.

(** ** Network interfaces *)

Module Interfaces.

(** [INTERFACE_CACHE_EXPIRE = 60]. *)
Definition INTERFACE_CACHE_EXPIRE : Q := 60.

(** What [psutil.net_if_addrs()] gives: for every interface, in order, its
    addresses, each with the answer to [family == socket.AF_INET]; [None]
    when the call raises. *)
Abbreviation net_if_addrs := (option (list (string * list (bool * string)))).

(** [ip_to_interface_cache] and [interface_cache_last_update]. *)
Record cache := Cache {
  ip_to_interface_cache : gmap string string;
  interface_cache_last_update : Q
}.

Definition initial_cache : cache := Cache ∅ 0.

(** The inner loop of the rebuild, for one interface. *)
Definition add_interface (m : gmap string string)
    (entry : string * list (bool * string)) : gmap string string :=
  foldl (fun (m : gmap string string) (addr : bool * string) =>
           if addr.1 then <[addr.2 := entry.1]> m else m)
        m entry.2.

(** The cache after [clear()] and the loops. *)
Definition rebuilt (interfaces : net_if_addrs) : gmap string string :=
  match interfaces with
  | Some l => foldl add_interface ∅ l
  | None => ∅
  end.

(** [get_interface_name(server_ip)]: the name and the cache afterwards. *)
Definition get_interface_name (interfaces : net_if_addrs) (server_ip : string)
    (current_time : Q) (c : cache) : string * cache :=
  let c' :=
    if Qgtb (current_time - interface_cache_last_update c) INTERFACE_CACHE_EXPIRE
    then Cache (rebuilt interfaces) current_time
    else c in
  (default "未知接口" (ip_to_interface_cache c' !! server_ip), c').

(** [get_all_ip_addresses()]; [local_ip] is
    [socket.gethostbyname(socket.gethostname())], [None] when that raises. *)
Definition get_all_ip_addresses (interfaces : net_if_addrs) (local_ip : option string)
  : list (string * string) :=
  ([("本地回环地址", "127.0.0.1"); ("本地回环地址", "localhost")]
  ++ match interfaces with
     | Some l =>
         flat_map
           (fun entry : string * list (bool * string) =>
              flat_map
                (fun addr : bool * string =>
                   if addr.1 && negb (String.prefix "127." addr.2)
                   then [(entry.1, addr.2)] else [])
                entry.2)
           l
     | None =>
         match local_ip with
         | Some ip =>
             if negb (String.prefix "127." ip) then [("局域网地址", ip)] else []
         | None => []
         end
     end)%list.

End Interfaces.

(** * Properties *)

(** ** Clock comparisons *)

Lemma Qgtb_true (a b : Q) : Qgtb a b = true <-> (b < a)%Q.
Proof.
  unfold Qgtb. rewrite negb_true_iff. split.
  - intros H. apply Qnot_le_lt. intros Hle.
    apply Qle_bool_iff in Hle. congruence.
  - intros H. destruct (Qle_bool a b) eqn:E; [|reflexivity].
    apply Qle_bool_iff in E. exfalso. apply (Qlt_not_le _ _ H E).
Qed.

Lemma Qgtb_false (a b : Q) : Qgtb a b = false <-> (a <= b)%Q.
Proof.
  unfold Qgtb. rewrite negb_false_iff. apply Qle_bool_iff.
Qed.

Lemma Qle_bool_false (a b : Q) : Qle_bool a b = false <-> (b < a)%Q.
Proof.
  rewrite <- Qgtb_true. unfold Qgtb. now rewrite negb_true_iff.
Qed.

(** Turn the boolean comparisons of the hypotheses and of the goal into
    order facts and let [lra] finish. *)
Ltac q_cmp :=
  repeat match goal with
  | H : Qgtb _ _ = true |- _ => apply Qgtb_true in H
  | H : Qgtb _ _ = false |- _ => apply Qgtb_false in H
  | H : Qle_bool _ _ = true |- _ => apply Qle_bool_iff in H
  | H : Qle_bool _ _ = false |- _ => apply Qle_bool_false in H
  | |- Qgtb _ _ = true => apply Qgtb_true
  | |- Qgtb _ _ = false => apply Qgtb_false
  | |- Qle_bool _ _ = true => apply Qle_bool_iff
  | |- Qle_bool _ _ = false => apply Qle_bool_false
  end;
  unfold Tokens.TOKEN_USED_CLEANUP_TIME, Catalog.VIDEO_CACHE_EXPIRE in *;
  try lra.

(** ** The token map *)

Section TokenFacts.
Import Tokens.
Implicit Types (vt : gmap string token_info) (tok : string).

Lemma lookup_foldl_delete vt (ks : list string) tok :
  foldl (fun m k => delete k m) vt ks !! tok
  = if decide (tok ∈ ks) then None else vt !! tok.
Proof.
  revert vt. induction ks as [|k ks IH]; intros vt; cbn [foldl].
  - rewrite decide_False; [done | apply not_elem_of_nil].
  - rewrite IH. destruct (decide (tok = k)) as [->|Hne].
    + rewrite lookup_delete_eq, (decide_True (P := k ∈ k :: ks))
        by (apply elem_of_cons; by left).
      by destruct (decide (k ∈ ks)).
    + rewrite lookup_delete_ne by done.
      destruct (decide (tok ∈ ks)) as [Hin|Hin].
      * rewrite decide_True; [done | apply elem_of_cons; by right].
      * rewrite decide_False; [done | by apply not_elem_of_cons].
Qed.

Lemma elem_of_expired_tokens now vt tok :
  tok ∈ expired_tokens now vt
  <-> exists ti, vt !! tok = Some ti /\ is_expired now ti = true.
Proof.
  unfold expired_tokens. rewrite list_elem_of_fmap. split.
  - intros [[k ti] [-> Hin]]. apply list_elem_of_filter in Hin as [Hexp Hin].
    apply elem_of_map_to_list in Hin. eauto.
  - intros [ti [Hl He]]. exists (tok, ti). split; [done|].
    apply list_elem_of_filter. split; [done|]. by apply elem_of_map_to_list.
Qed.

(** What a sweep leaves under a key. *)
Lemma clean_lookup now vt tok :
  (clean_expired_tokens now vt).1 !! tok
  = match vt !! tok with
    | Some ti => if is_expired now ti then None else Some ti
    | None => None
    end.
Proof.
  unfold clean_expired_tokens. simpl. rewrite lookup_foldl_delete.
  case_decide as Hin.
  - apply elem_of_expired_tokens in Hin as [ti [-> ->]]. done.
  - destruct (vt !! tok) as [ti|] eqn:E; [|done].
    destruct (is_expired now ti) eqn:He; [|done].
    exfalso. apply Hin. apply elem_of_expired_tokens. eauto.
Qed.

(** The first use of a structured token that the sweep of the request
    does not remove. *)
Lemma index_unused tok e ts tu vt :
  tok <> "" ->
  vt !! tok = Some (TDict (TokenDict e None)) ->
  (ts <= e)%Q ->
  index tok ts tu vt
  = (Page true, <[tok := TDict (TokenDict e (Some tu))]> (clean_expired_tokens ts vt).1).
Proof.
  intros Hne Hl Hts. unfold index. rewrite decide_False by done.
  cbv zeta. rewrite clean_lookup, Hl. cbn [is_expired used_time expire_time].
  replace (Qgtb ts e) with false by (symmetry; q_cmp).
  rewrite andb_false_r. reflexivity.
Qed.

(** A later use, as long as the sweep of the request does not remove the
    token. *)
Lemma index_used tok e u ts tu vt :
  tok <> "" ->
  vt !! tok = Some (TDict (TokenDict e (Some u))) ->
  (ts <= u + 3600)%Q ->
  index tok ts tu vt = (AlertReused, (clean_expired_tokens ts vt).1)
  /\ (clean_expired_tokens ts vt).1 !! tok = Some (TDict (TokenDict e (Some u))).
Proof.
  intros Hne Hl Hts.
  assert (Hc : (clean_expired_tokens ts vt).1 !! tok
               = Some (TDict (TokenDict e (Some u)))).
  { rewrite clean_lookup, Hl. cbn [is_expired used_time].
    replace (Qgtb ts (u + TOKEN_USED_CLEANUP_TIME)) with false
      by (symmetry; q_cmp).
    reflexivity. }
  split; [|exact Hc].
  unfold index. rewrite decide_False by done. cbv zeta. rewrite Hc. reflexivity.
Qed.

Section Records.
Variable P : token_dict -> Prop.
Hypothesis P_used : forall d t, P d -> P (TokenDict (expire_time d) (Some t)).

Lemma all_records_clean now vt :
  all_records P vt -> all_records P (clean_expired_tokens now vt).1.
Proof.
  intros H k ti Hk. rewrite clean_lookup in Hk.
  destruct (vt !! k) as [ti'|] eqn:E; [|done].
  destruct (is_expired now ti'); [done|]. inversion Hk; subst. eauto.
Qed.

Lemma all_records_insert vt k d :
  all_records P vt -> P d -> all_records P (<[k := TDict d]> vt).
Proof.
  intros H Hd k' ti Hk. destruct (decide (k = k')) as [->|Hne].
  - rewrite lookup_insert_eq in Hk. inversion Hk; subst. eauto.
  - rewrite lookup_insert_ne in Hk by done. eauto.
Qed.

Lemma all_records_apply_op pw vt op :
  issued_with P op -> all_records P vt -> all_records P (apply_op pw vt op).
Proof.
  intros Hop H. destruct op as [password token now|tok ts tu|tok|now]; cbn [apply_op].
  - unfold verify_secret. case_decide; [|done]. simpl.
    by apply all_records_insert.
  - unfold index. case_decide; [done|]. cbv zeta.
    pose proof (all_records_clean ts _ H) as Hc.
    destruct (_ !! tok) as [[v|d]|] eqn:E; simpl.
    + destruct (Hc _ _ E) as [d [Hd _]]. discriminate.
    + destruct (used_time d) eqn:Eu; simpl; [done|].
      apply all_records_insert; [done|]. apply P_used.
      destruct (Hc _ _ E) as [d' [Hd HP]]. by inversion Hd; subst.
    + done.
  - unfold invalidate_token. case_decide; [done|].
    destruct (vt !! tok) eqn:E; [|done].
    intros k ti Hk. destruct (decide (tok = k)) as [->|Hne].
    + by rewrite lookup_delete_eq in Hk.
    + rewrite lookup_delete_ne in Hk by done. eauto.
  - by apply all_records_clean.
Qed.

Lemma all_records_run_ops pw ops :
  Forall (issued_with P) ops -> all_records P (run_ops pw ops).
Proof.
  unfold run_ops. intros Hops.
  assert (H0 : all_records P ∅) by (intros k ti Hk; by rewrite lookup_empty in Hk).
  revert H0. generalize (∅ : gmap string token_info).
  induction Hops as [|op ops Hop Hops IH]; intros vt Hvt; simpl; [done|].
  apply IH. by apply all_records_apply_op.
Qed.

End Records.

(** No history leaves a bare number in the map. *)
Lemma run_ops_records pw ops : all_records (fun _ => True) (run_ops pw ops).
Proof.
  apply all_records_run_ops; [done|].
  apply Forall_forall. intros op _. by destruct op.
Qed.

(** With the clock after the epoch, an unused token expires after it too. *)
Lemma run_ops_positive pw ops :
  Forall after_epoch ops ->
  all_records (fun d => used_time d = None -> (0 < expire_time d)%Q) (run_ops pw ops).
Proof.
  intros H. apply all_records_run_ops; [discriminate|].
  eapply Forall_impl; [exact H|]. intros [password token now| | |] Hop; try done.
  simpl in *. intros _. lra.
Qed.

(** A used token under maintenance: it is kept until a pass later than the
    grace hour removes it. *)
Lemma sweep_all_used tok e t now times vt :
  Forall (fun s => (s <= now)%Q) times ->
  vt !! tok = Some (TDict (TokenDict e (Some t)))
  \/ (vt !! tok = None /\ (t + 3600 < now)%Q) ->
  sweep_all times vt !! tok = Some (TDict (TokenDict e (Some t)))
  \/ (sweep_all times vt !! tok = None /\ (t + 3600 < now)%Q).
Proof.
  intros Hs. revert vt. induction Hs as [|s times Hsn Hs IH]; intros vt H; [done|].
  cbn [sweep_all foldl]. apply IH. rewrite clean_lookup.
  destruct H as [-> | [-> Hlt]]; [|by right].
  cbn [is_expired used_time].
  destruct (Qgtb s (t + TOKEN_USED_CLEANUP_TIME)) eqn:E; [right|by left].
  split; [done|]. q_cmp.
Qed.

(** The sentinel under maintenance. *)
Lemma sweep_all_sentinel tok v times vt :
  (v == -1)%Q -> vt !! tok = Some (TNum v) ->
  sweep_all times vt !! tok = Some (TNum v).
Proof.
  intros Hv. revert vt. induction times as [|s times IH]; intros vt H; [done|].
  cbn [sweep_all foldl]. apply IH. rewrite clean_lookup, H.
  cbn [is_expired]. replace (Qgtb v 0) with false; [done|].
  symmetry. q_cmp.
Qed.

(** A key that holds nothing stays empty until a token is issued under it. *)
Lemma absent_apply_op pw vt op tok :
  issues tok op = false -> vt !! tok = None -> apply_op pw vt op !! tok = None.
Proof.
  intros Hi Hn. destruct op as [password token now|tok' ts tu|tok'|now]; cbn [apply_op].
  - unfold verify_secret. case_decide; [|done]. simpl.
    simpl in Hi. apply String.eqb_neq in Hi. by rewrite lookup_insert_ne.
  - unfold index. case_decide; [done|]. cbv zeta.
    assert (Hc : (clean_expired_tokens ts vt).1 !! tok = None)
      by (by rewrite clean_lookup, Hn).
    destruct (_ !! tok') as [[v|d]|] eqn:E; simpl.
    + destruct (Qgtb v 0); simpl; [|done].
      rewrite lookup_insert_ne; [done|]. intros ->. congruence.
    + destruct (used_time d); simpl; [done|].
      rewrite lookup_insert_ne; [done|]. intros ->. congruence.
    + done.
  - unfold invalidate_token. case_decide; [done|].
    destruct (vt !! tok') eqn:E; [|done].
    destruct (decide (tok' = tok)) as [->|Hne]; [congruence|].
    by rewrite lookup_delete_ne.
  - by rewrite clean_lookup, Hn.
Qed.

Lemma absent_foldl_apply_op pw ops vt tok :
  forallb (fun op => negb (issues tok op)) ops = true ->
  vt !! tok = None -> foldl (apply_op pw) vt ops !! tok = None.
Proof.
  revert vt. induction ops as [|op ops IH]; intros vt Hops Hn; simpl; [done|].
  simpl in Hops. apply andb_true_iff in Hops as [Hop Hops].
  apply IH; [done|]. apply absent_apply_op; [|done].
  by apply negb_true_iff.
Qed.

Lemma is_token_valid_absent tok now vt :
  vt !! tok = None -> is_token_valid tok now vt = false.
Proof. intros H. unfold is_token_valid. case_decide; [done|]. by rewrite H. Qed.

(** C3.  In a sequential run, [/verify-secret] with the right password
    stores a record with [expire_time = now + 300] and [used_time = None]
    under the new token, and the token validates (unused) at every time
    before that deadline; the first [/] request with the token, swept no
    later than the deadline, gets the page in secret mode; a second one,
    swept within the hour after the first use, gets the "cannot be used
    twice" alert. *)
Theorem issue_then_consume_twice (cfg : settings) password tok t0 ts1 tu1 ts2 tu2 vt :
  password = SECRET_PASSWORD cfg ->
  tok <> "" ->
  (ts1 <= t0 + 300)%Q ->
  (ts2 <= tu1 + 3600)%Q ->
  let issued := verify_secret (SECRET_PASSWORD cfg) password tok t0 vt in
  let first := index tok ts1 tu1 issued.2 in
  let second := index tok ts2 tu2 first.2 in
  issued.1 = Some tok
  /\ issued.2 !! tok = Some (TDict (TokenDict (t0 + 300) None))
  /\ (forall now, (now < t0 + 300)%Q -> is_token_valid tok now issued.2 = true)
  /\ first.1 = Page true
  /\ second.1 = AlertReused.
Proof.
  intros Hpw Hne H1 H2. cbv zeta.
  unfold verify_secret. rewrite decide_True by done. cbn [fst snd].
  assert (Hl : (<[tok := TDict (TokenDict (t0 + 300) None)]> vt) !! tok
               = Some (TDict (TokenDict (t0 + 300) None)))
    by apply lookup_insert_eq.
  repeat split; [exact Hl | | |].
  - intros now Hnow. unfold is_token_valid. rewrite decide_False by done.
    rewrite Hl. cbn [used_time expire_time]. q_cmp.
  - by rewrite (index_unused tok (t0 + 300) ts1 tu1 _ Hne Hl H1).
  - rewrite (index_unused tok (t0 + 300) ts1 tu1 _ Hne Hl H1). cbn [snd].
    edestruct (index_used tok (t0 + 300) tu1 ts2 tu2) as [-> _];
      [exact Hne | apply lookup_insert_eq | exact H2 | done].
Qed.

Lemma issue_then_consume_twice_witness :
  (index "tok" 10 11
     (index "tok" 1 2
        (verify_secret "pw" "pw" "tok" 0 ∅).2).2).1 = AlertReused.
Proof.
  apply (issue_then_consume_twice (Settings "/share" "/secret" "pw")
           "pw" "tok" 0 1 2 10 11 ∅); [reflexivity | discriminate | lra | lra].
Defined.

(** C4.  A token of the running server whose first use, at time [t], got the
    page in secret mode is valid, and still stored as used at [t], at every
    time up to [t + 3600]; it is invalid at every later time.  Passes of
    the maintenance thread in between change nothing to that. *)
Theorem consumed_token_grace_window pw ops tok ts t vt' :
  index tok ts t (run_ops pw ops) = (Page true, vt') ->
  forall times now,
    Forall (fun s => (s <= now)%Q) times ->
    ((now <= t + 3600)%Q ->
     is_token_valid tok now (sweep_all times vt') = true
     /\ exists e, sweep_all times vt' !! tok = Some (TDict (TokenDict e (Some t))))
    /\ ((t + 3600 < now)%Q -> is_token_valid tok now (sweep_all times vt') = false).
Proof.
  intros Hidx times now Htimes.
  assert (Hne : tok <> "").
  { intros ->. unfold index in Hidx. simpl in Hidx. discriminate. }
  assert (exists e, vt' !! tok = Some (TDict (TokenDict e (Some t)))) as [e He].
  { unfold index in Hidx. rewrite decide_False in Hidx by done. cbv zeta in Hidx.
    pose proof (all_records_clean _ ts _ (run_ops_records pw ops)) as Hrec.
    destruct (_ !! tok) as [[v|d]|] eqn:E.
    - destruct (Hrec _ _ E) as [d [Hd _]]. discriminate.
    - destruct (used_time d); [discriminate|].
      inversion Hidx; subst. exists (expire_time d). apply lookup_insert_eq.
    - discriminate. }
  destruct (sweep_all_used tok e t now times vt' Htimes (or_introl He))
    as [Hk | [Hgone Hlate]];
    unfold is_token_valid; rewrite decide_False by done.
  - rewrite Hk. cbn [used_time]. split; intros.
    + split; [q_cmp | eauto].
    + q_cmp.
  - rewrite Hgone. split; [intros; lra | done].
Qed.

Lemma consumed_token_grace_window_witness :
  is_token_valid "tok" 3602
    (sweep_all [100%Q; 3000%Q]
       (index "tok" 1 2 (run_ops "pw" [Issue "pw" "tok" 0])).2) = true.
Proof.
  refine (proj1 (proj1 (consumed_token_grace_window "pw" [Issue "pw" "tok" 0] "tok" 1 2
                          (index "tok" 1 2 (run_ops "pw" [Issue "pw" "tok" 0])).2
                          _ [100%Q; 3000%Q] 3602 _) _)).
  - vm_compute. reflexivity.
  - repeat constructor; lra.
  - lra.
Defined.

(** C5.  An unused token of the running server whose [expire_time] is in the
    past is gone from the map after a pass of [clean_expired_tokens], and
    [is_token_valid] answers [False] for it at every later time, until a
    token is issued under the same identifier. *)
Theorem sweep_removes_expired_unused pw ops tok e now later now' :
  Forall after_epoch ops ->
  run_ops pw ops !! tok = Some (TDict (TokenDict e None)) ->
  (e < now)%Q ->
  forallb (fun op => negb (issues tok op)) later = true ->
  let swept := (clean_expired_tokens now (run_ops pw ops)).1 in
  swept !! tok = None
  /\ is_token_valid tok now' (foldl (apply_op pw) swept later) = false.
Proof.
  intros Hops Hl He Hlater. cbv zeta.
  assert (Hgone : (clean_expired_tokens now (run_ops pw ops)).1 !! tok = None).
  { rewrite clean_lookup, Hl. cbn [is_expired used_time expire_time].
    destruct (run_ops_positive pw ops Hops _ _ Hl) as [d [Hd Hpos]].
    inversion Hd; subst d. specialize (Hpos eq_refl). simpl in Hpos.
    replace (Qgtb e 0) with true by (symmetry; q_cmp).
    replace (Qgtb now e) with true by (symmetry; q_cmp).
    reflexivity. }
  split; [exact Hgone|].
  apply is_token_valid_absent. by apply absent_foldl_apply_op.
Qed.

Lemma sweep_removes_expired_unused_witness :
  (clean_expired_tokens 301 (run_ops "pw" [Issue "pw" "tok" 0])).1 !! "tok" = None
  /\ is_token_valid "tok" 302
       (foldl (apply_op "pw")
          (clean_expired_tokens 301 (run_ops "pw" [Issue "pw" "tok" 0])).1
          [Consume "tok" 303 303; Sweep 304]) = false.
Proof.
  apply (sweep_removes_expired_unused "pw" [Issue "pw" "tok" 0] "tok" (0 + 300) 301
           [Consume "tok" 303 303; Sweep 304] 302).
  - repeat constructor. simpl. lra.
  - vm_compute. reflexivity.
  - lra.
  - reflexivity.
Defined.

(** C10.  A token stored as a bare number equal to [-1] is valid at every
    time; no pass of [clean_expired_tokens] removes it, and a [/] request
    with it gets the "cannot be used twice" alert and leaves it in the map. *)
Theorem legacy_sentinel_is_permanent vt tok v :
  tok <> "" ->
  vt !! tok = Some (TNum v) ->
  (v == -1)%Q ->
  forall times now ts tu,
    sweep_all times vt !! tok = Some (TNum v)
    /\ is_token_valid tok now (sweep_all times vt) = true
    /\ (index tok ts tu (sweep_all times vt)).1 = AlertReused
    /\ (index tok ts tu (sweep_all times vt)).2 !! tok = Some (TNum v).
Proof.
  intros Hne Hl Hv times now ts tu.
  pose proof (sweep_all_sentinel tok v times vt Hv Hl) as Hs.
  pose proof (sweep_all_sentinel tok v [ts] _ Hv Hs) as Hc.
  cbn [sweep_all foldl] in Hc.
  split; [exact Hs|]. split.
  - unfold is_token_valid. rewrite decide_False by done. rewrite Hs.
    replace (Qeq_bool v (-1)) with true; [done|].
    symmetry. by apply Qeq_bool_iff.
  - unfold index. rewrite decide_False by done. cbv zeta. rewrite Hc.
    replace (Qgtb v 0) with false by (symmetry; q_cmp).
    by split.
Qed.

Lemma legacy_sentinel_is_permanent_witness :
  is_token_valid "old" 2000000000 (sweep_all [5%Q; 1000000000%Q] {["old" := TNum (-1)]})
  = true.
Proof.
  refine (proj1 (proj2 (legacy_sentinel_is_permanent {["old" := TNum (-1)]} "old" (-1)
                          _ _ _ [5%Q; 1000000000%Q] 2000000000 0 0))).
  - discriminate.
  - vm_compute. reflexivity.
  - reflexivity.
Defined.

End TokenFacts.

(** ** Requests to [/] that overlap, and requests that do not *)

Section RaceFacts.
Import Tokens Race.
Implicit Types (vt : gmap string token_info) (tok : string).

(** A thread that is not interrupted does what [index] does. *)
Lemma thread_uninterrupted tok ts tm tu vt :
  let s1 := thread_step tok ts AtSweep vt in
  let s2 := thread_step tok tm s1.1 s1.2 in
  let s3 := thread_step tok tu s2.1 s2.2 in
  s3 = (Done (index tok ts tu vt).1, (index tok ts tu vt).2).
Proof.
  cbv zeta. unfold index. cbn [thread_step].
  destruct (decide (tok = "")) as [->|Hne]; [reflexivity|].
  cbn [fst snd thread_step].
  destruct ((clean_expired_tokens ts vt).1 !! tok) as [[v|d]|] eqn:E;
    cbn [fst snd thread_step].
  - destruct (Qgtb v 0); reflexivity.
  - destruct (used_time d) eqn:Eu; cbn [fst snd thread_step]; [reflexivity|].
    rewrite E. reflexivity.
  - reflexivity.
Qed.

Lemma run_three_steps tok i ts tm tu ths vt :
  ths !! i = Some AtSweep ->
  run tok [(i, ts); (i, tm); (i, tu)] (Config ths vt)
  = Config (<[i := Done (index tok ts tu vt).1]> ths) (index tok ts tu vt).2.
Proof.
  intros Hi. pose proof (thread_uninterrupted tok ts tm tu vt) as H.
  cbv zeta in H. unfold run. cbn [foldl].
  assert (Hlt : (i < length ths)%nat) by (eapply lookup_lt_Some; eauto).
  unfold sched_step at 3. cbn [fst snd threads store]. rewrite Hi.
  unfold sched_step at 2. cbn [fst snd threads store].
  rewrite list_lookup_insert_eq by done.
  unfold sched_step at 1. cbn [fst snd threads store].
  rewrite list_lookup_insert_eq by (by rewrite length_insert).
  rewrite !list_insert_insert_eq. rewrite H. reflexivity.
Qed.

Lemma run_app tok (s1 s2 : list (nat * Q)) c :
  run tok (s1 ++ s2)%list c = run tok s2 (run tok s1 c).
Proof. unfold run. apply foldl_app. Qed.

(** Served one by one, the requests end with the answers of
    [index_sequence]. *)
Lemma run_one_by_one tok clocks finished vt :
  threads (run tok (one_by_one (length finished) clocks)
             (Config (finished ++ replicate (length clocks) AtSweep)%list vt))
  = (finished ++ map Done (index_sequence tok clocks vt))%list.
Proof.
  revert finished vt. induction clocks as [|[ts tu] rest IH]; intros finished vt.
  - reflexivity.
  - cbn [one_by_one index_sequence length replicate map].
    change ((length finished, ts) :: (length finished, ts) :: (length finished, tu)
              :: one_by_one (S (length finished)) rest)
      with ([(length finished, ts); (length finished, ts); (length finished, tu)]
              ++ one_by_one (S (length finished)) rest)%list.
    rewrite run_app, run_three_steps
      by (rewrite lookup_app_r, Nat.sub_diag by lia; reflexivity).
    rewrite insert_app_r_alt, Nat.sub_diag by lia. cbn [insert list_insert].
    specialize (IH (finished ++ [Done (index tok ts tu vt).1])%list
                  (index tok ts tu vt).2).
    rewrite length_app, Nat.add_1_r, <- !app_assoc in IH. exact IH.
Qed.

(** Later requests on a used token, each swept within the hour after the
    first use. *)
Lemma index_sequence_used tok e u clocks vt :
  tok <> "" ->
  vt !! tok = Some (TDict (TokenDict e (Some u))) ->
  Forall (fun c => (c.1 <= u + 3600)%Q) clocks ->
  index_sequence tok clocks vt = replicate (length clocks) AlertReused.
Proof.
  intros Hne Hl Hc. revert vt Hl.
  induction Hc as [|[ts tu] rest Hts Hrest IH]; intros vt Hl; [reflexivity|].
  cbn [index_sequence length replicate].
  destruct (index_used tok e u ts tu vt Hne Hl Hts) as [-> Hkeep].
  cbn [fst snd]. f_equal. by apply IH.
Qed.

Lemma answered_app r l1 l2 vt :
  answered r (Config (l1 ++ l2)%list vt)
  = (answered r (Config l1 vt) + answered r (Config l2 vt))%nat.
Proof. unfold answered. cbn [threads]. by rewrite List.filter_app, length_app. Qed.

Lemma answered_replicate r r' n vt :
  answered r (Config (map Done (replicate n r')) vt)
  = if is_done r (Done r') then n else 0%nat.
Proof.
  unfold answered. cbn [threads].
  induction n as [|n IH]; cbn [replicate map List.filter].
  - by destruct (is_done r (Done r')).
  - destruct (is_done r (Done r')) eqn:E; cbn [length]; by rewrite IH.
Qed.

(** C1, as the code has it.  Two requests for a fresh token whose steps
    interleave: both read [used_time] as [None] before either stores it, and
    both get the page in secret mode. *)
Lemma overlapping_requests_both_consume :
  answered (Page true)
    (run "tok" overlapping (arrivals 2 (verify_secret "pw" "pw" "tok" 0 ∅).2))
  = 2%nat
  /\ answered AlertReused
       (run "tok" overlapping (arrivals 2 (verify_secret "pw" "pw" "tok" 0 ∅).2))
     = 0%nat.
Proof. split; vm_compute; reflexivity. Qed.

(** C1, amended.  When the requests for a freshly issued token are served
    one after the other, each swept before the token expires and none
    before it was issued, exactly one gets the page in secret mode and all
    the others get the "cannot be used twice" alert. *)
Theorem one_by_one_single_consumer (cfg : settings) password tok t0 vt
    (clocks : list (Q * Q)) :
  password = SECRET_PASSWORD cfg ->
  tok <> "" ->
  Forall (fun c => (c.1 <= t0 + 300)%Q /\ (t0 <= c.2)%Q) clocks ->
  clocks <> [] ->
  let issued := (verify_secret (SECRET_PASSWORD cfg) password tok t0 vt).2 in
  let final := run tok (one_by_one 0 clocks) (arrivals (length clocks) issued) in
  answered (Page true) final = 1%nat
  /\ answered AlertReused final = (length clocks - 1)%nat.
Proof.
  intros Hpw Hne Hclocks Hsome. cbv zeta.
  unfold answered, arrivals.
  rewrite (run_one_by_one tok clocks [] _). cbn [app].
  unfold verify_secret. rewrite decide_True by done. cbn [snd].
  destruct clocks as [|[ts tu] rest]; [done|].
  apply Forall_cons in Hclocks as [[Hts Htu] Hrest]. cbn [fst snd] in Hts, Htu.
  cbn [index_sequence].
  rewrite (index_unused tok (t0 + 300) ts tu _ Hne (lookup_insert_eq _ _ _) Hts).
  cbn [fst snd].
  rewrite (index_sequence_used tok (t0 + 300) tu rest _ Hne (lookup_insert_eq _ _ _)).
  - pose proof (answered_replicate (Page true) AlertReused (length rest) ∅) as H1.
    pose proof (answered_replicate AlertReused AlertReused (length rest) ∅) as H2.
    unfold answered in H1, H2. cbn [threads is_done] in H1, H2.
    cbn [map List.filter is_done eqb length]. rewrite H1, H2. split; [done | lia].
  - eapply Forall_impl; [exact Hrest|]. intros [ts' tu'] [H _]. simpl in *. lra.
Qed.

Lemma one_by_one_single_consumer_witness :
  answered (Page true)
    (run "tok" (one_by_one 0 [(1, 2); (3, 4); (5, 6)]%Q)
       (arrivals 3 (verify_secret "pw" "pw" "tok" 0 ∅).2)) = 1%nat
  /\ answered AlertReused
       (run "tok" (one_by_one 0 [(1, 2); (3, 4); (5, 6)]%Q)
          (arrivals 3 (verify_secret "pw" "pw" "tok" 0 ∅).2)) = 2%nat.
Proof.
  apply (one_by_one_single_consumer (Settings "/share" "/secret" "pw")
           "pw" "tok" 0 ∅ [(1, 2); (3, 4); (5, 6)]%Q).
  - reflexivity.
  - discriminate.
  - repeat constructor; simpl; lra.
  - discriminate.
Defined.

End RaceFacts.

(** ** The listing cache *)

Section CatalogFacts.
Import Catalog.

Lemma cache_get_set is_secret e c : cache_get is_secret (cache_set is_secret e c) = e.
Proof. by destruct is_secret. Qed.

(** After a call the cache holds the list the call returned. *)
Lemma get_video_list_files cfg fs is_secret force now cache :
  files (cache_get is_secret (get_video_list cfg fs is_secret force now cache).2)
  = (get_video_list cfg fs is_secret force now cache).1.
Proof.
  unfold get_video_list. cbv zeta.
  destruct (negb force && _ && _); [reflexivity|].
  destruct (FS.resolve fs _); cbn [fst snd]; by rewrite cache_get_set.
Qed.

(** C6, as the code has it.  The root of the open catalog is missing at the
    first call, which returns the empty list and stores it with the scan
    time 1000; one second later the directory exists and holds a video, and
    the second call, well within the 300 seconds and without a forced
    refresh, returns the new list. *)
Lemma empty_listing_is_scanned_again :
  (get_video_list (Settings "/share" "/secret" "pw") (FS.Dir [])
     false false 1000 initial_cache).1 = []
  /\ normal (get_video_list (Settings "/share" "/secret" "pw") (FS.Dir [])
              false false 1000 initial_cache).2 = CacheEntry [] 1000
  /\ (get_video_list (Settings "/share" "/secret" "pw")
        (FS.Dir [("share", FS.Dir [("a.mp4", FS.File [])])])
        false false 1001
        (get_video_list (Settings "/share" "/secret" "pw") (FS.Dir [])
           false false 1000 initial_cache).2).1 = ["a.mp4"].
Proof. repeat split; vm_compute; reflexivity. Qed.

(** C6, amended.  After a call of [get_video_list], a second call for the
    same catalog without a forced refresh, less than 300 seconds after the
    scan the cache holds, returns the same list and leaves the cache as it
    is, whatever the directory has become, provided the list is not empty.
    An empty list is stored with its scan time but never served from the
    cache: the second call does what a forced refresh does.  A missing root
    directory gives the empty list, stored with the time of the call, in
    every call that scans: a forced one, one that finds an empty list in
    the cache, and one that finds a list of 300 seconds or more. *)
Theorem cached_listing_within_ttl cfg fs fs' is_secret force t1 t2 cache :
  let first := get_video_list cfg fs is_secret force t1 cache in
  (t2 - last_update (cache_get is_secret first.2) < VIDEO_CACHE_EXPIRE)%Q ->
  let second := get_video_list cfg fs' is_secret false t2 first.2 in
  (first.1 <> [] -> second = first)
  /\ (first.1 = [] -> second = get_video_list cfg fs' is_secret true t2 first.2)
  /\ (FS.resolve fs (video_root cfg is_secret) = None ->
      force = true
      \/ files (cache_get is_secret cache) = []
      \/ (VIDEO_CACHE_EXPIRE <= t1 - last_update (cache_get is_secret cache))%Q ->
      first.1 = [] /\ cache_get is_secret first.2 = CacheEntry [] t1).
Proof.
  cbv zeta. intros Httl.
  pose proof (get_video_list_files cfg fs is_secret force t1 cache) as Hfiles.
  set (first := get_video_list cfg fs is_secret force t1 cache) in *.
  split; [|split].
  - intros Hne. unfold get_video_list at 1. cbv zeta. rewrite Hfiles.
    rewrite bool_decide_eq_false_2 by done.
    replace (Qgtb VIDEO_CACHE_EXPIRE (t2 - last_update (cache_get is_secret first.2)))
      with true by (symmetry; q_cmp).
    cbn [negb andb]. by destruct first.
  - intros Hempty. unfold get_video_list. cbv zeta. rewrite Hfiles.
    rewrite bool_decide_eq_true_2 by done. cbn [negb andb]. reflexivity.
  - intros Hroot Hscan. subst first. unfold get_video_list. cbv zeta.
    assert (negb force
            && negb (bool_decide (files (cache_get is_secret cache) = []))
            && Qgtb VIDEO_CACHE_EXPIRE (t1 - last_update (cache_get is_secret cache))
            = false) as ->.
    { destruct Hscan as [->|[Hempty|Hold]].
      - reflexivity.
      - rewrite bool_decide_eq_true_2 by done. cbn [negb]. by rewrite andb_false_r.
      - replace (Qgtb VIDEO_CACHE_EXPIRE (t1 - last_update (cache_get is_secret cache)))
          with false by (symmetry; q_cmp).
        by rewrite andb_false_r. }
    rewrite Hroot. cbn [fst snd].
    split; [reflexivity | apply cache_get_set].
Qed.

Lemma cached_listing_within_ttl_witness :
  get_video_list (Settings "/share" "/secret" "pw") (FS.Dir [])
    false false 1001
    (get_video_list (Settings "/share" "/secret" "pw")
       (FS.Dir [("share", FS.Dir [("a.mp4", FS.File [])])])
       false false 1000 initial_cache).2
  = get_video_list (Settings "/share" "/secret" "pw")
      (FS.Dir [("share", FS.Dir [("a.mp4", FS.File [])])])
      false false 1000 initial_cache.
Proof.
  refine (proj1 (cached_listing_within_ttl (Settings "/share" "/secret" "pw")
                   (FS.Dir [("share", FS.Dir [("a.mp4", FS.File [])])]) (FS.Dir [])
                   false false 1000 1001 initial_cache _) _).
  - vm_compute. reflexivity.
  - vm_compute. discriminate.
Defined.

End CatalogFacts.

(** ** The connection registry *)

Section RegistryFacts.
Import Registry.
Implicit Types (d : connections) (k : string) (c : conn_info).

Lemma get_None k d : get k d = None <-> k ∉ d.*1.
Proof.
  induction d as [|[k' v] rest IH]; cbn [get fmap list_fmap fst].
  - split; [intros _; apply not_elem_of_nil | done].
  - rewrite not_elem_of_cons. destruct (String.eqb_spec k' k) as [->|Hne].
    + split; [done | intros [H _]; done].
    + rewrite IH. split; [intros H; split; [congruence | done] | intros [_ H]; done].
Qed.

Lemma get_Some_elem k c d : get k d = Some c -> (k, c) ∈ d.
Proof.
  induction d as [|[k' v] rest IH]; cbn [get]; [done|].
  destruct (String.eqb_spec k' k) as [->|Hne].
  - intros [= ->]. apply elem_of_cons. by left.
  - intros H. apply elem_of_cons. right. by apply IH.
Qed.

Lemma elem_get k c d : NoDup d.*1 -> (k, c) ∈ d -> get k d = Some c.
Proof.
  induction d as [|[k' v] rest IH]; cbn [get fmap list_fmap fst]; intros Hnd Hin.
  - by apply elem_of_nil in Hin.
  - apply NoDup_cons in Hnd as [Hk' Hnd].
    apply elem_of_cons in Hin as [[= -> ->] | Hin].
    + by rewrite String.eqb_refl.
    + destruct (String.eqb_spec k' k) as [->|Hne]; [|by apply IH].
      exfalso. apply Hk'. apply list_elem_of_fmap. by exists (k, c).
Qed.

Lemma same_key_same_entry d (e1 e2 : string * conn_info) :
  NoDup d.*1 -> e1 ∈ d -> e2 ∈ d -> e1.1 = e2.1 -> e1 = e2.
Proof.
  intros Hnd H1 H2 Hk. destruct e1 as [k1 c1], e2 as [k2 c2]. simpl in Hk. subst k2.
  pose proof (elem_get _ _ _ Hnd H1) as G1.
  pose proof (elem_get _ _ _ Hnd H2) as G2. congruence.
Qed.

Lemma set_absent k c d : get k d = None -> set k c d = (d ++ [(k, c)])%list.
Proof.
  induction d as [|[k' v] rest IH]; cbn [get set app]; [done|].
  destruct (String.eqb k' k); [done|]. intros H. by rewrite IH.
Qed.

Lemma set_present k c c' d :
  get k d = Some c' -> length (set k c d) = length d /\ (set k c d).*1 = d.*1.
Proof.
  induction d as [|[k' v] rest IH]; cbn [get set]; [done|].
  destruct (String.eqb_spec k' k) as [->|Hne]; [done|].
  intros H. destruct (IH H) as [Hl Hk]. cbn [length fmap list_fmap fst].
  split; [by rewrite Hl | by rewrite <- Hk].
Qed.

Lemma del_filter k d :
  NoDup d.*1 -> del k d = filter (fun e => e.1 <> k) d.
Proof.
  induction d as [|[k' v] rest IH]; cbn [del fmap list_fmap fst]; intros Hnd; [done|].
  apply NoDup_cons in Hnd as [Hk' Hnd].
  destruct (String.eqb_spec k' k) as [->|Hne].
  - rewrite filter_cons_False by (simpl; intros H; by apply H).
    clear IH. induction rest as [|[k2 v2] rest IH]; [done|].
    cbn [fmap list_fmap fst] in Hk', Hnd. apply not_elem_of_cons in Hk' as [Hne Hk'].
    apply NoDup_cons in Hnd as [_ Hnd].
    rewrite filter_cons_True by (simpl; congruence). f_equal. by apply IH.
  - rewrite filter_cons_True by done. f_equal. by apply IH.
Qed.

Lemma NoDup_keys_filter (P : string * conn_info -> Prop) `{!forall e, Decision (P e)} d :
  NoDup d.*1 -> NoDup (filter P d).*1.
Proof.
  induction d as [|e rest IH]; cbn [fmap list_fmap]; intros Hnd; [done|].
  apply NoDup_cons in Hnd as [Hk Hnd]. rewrite filter_cons.
  destruct (decide (P e)); [|by apply IH]. cbn [fmap list_fmap].
  apply NoDup_cons. split; [|by apply IH].
  intros Hin. apply Hk. apply list_elem_of_fmap in Hin as [e' [-> Hin]].
  apply list_elem_of_filter in Hin as [_ Hin]. apply list_elem_of_fmap. eauto.
Qed.

Lemma foldl_del_filter (es : connections) d :
  NoDup d.*1 ->
  foldl (fun acc e => del e.1 acc) d es = filter (fun e => e.1 ∉ es.*1) d.
Proof.
  revert d. induction es as [|e es IH]; intros d Hnd; cbn [foldl fmap list_fmap].
  - symmetry. clear Hnd. induction d as [|x d IHd]; [done|].
    rewrite filter_cons_True by apply not_elem_of_nil. by f_equal.
  - rewrite IH, del_filter by (try rewrite del_filter by done; try apply NoDup_keys_filter; done).
    rewrite list_filter_filter. apply list_filter_iff. intros x.
    rewrite not_elem_of_cons. tauto.
Qed.


Lemma insert_by_last_seen_perm x d : insert_by_last_seen x d ≡ₚ x :: d.
Proof.
  induction d as [|y rest IH]; cbn [insert_by_last_seen]; [done|].
  destruct (Qle_bool _ _); [done|]. rewrite IH. apply Permutation_swap.
Qed.

Lemma sorted_by_last_seen_perm d : sorted_by_last_seen d ≡ₚ d.
Proof.
  induction d as [|x rest IH]; [done|]. unfold sorted_by_last_seen in *.
  cbn [foldr]. rewrite insert_by_last_seen_perm. by rewrite IH.
Qed.

Lemma insert_by_last_seen_sorted x d :
  StronglySorted older d -> StronglySorted older (insert_by_last_seen x d).
Proof.
  induction 1 as [|y rest Hs IH Hy]; cbn [insert_by_last_seen].
  - repeat constructor.
  - destruct (Qle_bool (last_seen x.2) (last_seen y.2)) eqn:E.
    + apply Qle_bool_iff in E. constructor; [by constructor|].
      constructor; [exact E|]. eapply Forall_impl; [exact Hy|].
      intros z Hz. unfold older in *. lra.
    + apply Qle_bool_false in E. constructor; [exact IH|].
      rewrite insert_by_last_seen_perm. constructor; [|exact Hy].
      unfold older. lra.
Qed.

Lemma sorted_by_last_seen_sorted d : StronglySorted older (sorted_by_last_seen d).
Proof.
  induction d as [|x rest IH]; [constructor|].
  unfold sorted_by_last_seen in *. cbn [foldr]. by apply insert_by_last_seen_sorted.
Qed.

Lemma sorted_app_older (l1 l2 : connections) x y :
  StronglySorted older (l1 ++ l2)%list -> x ∈ l1 -> y ∈ l2 -> older x y.
Proof.
  induction l1 as [|z l1 IH]; cbn [app]; intros Hs Hx Hy.
  - by apply elem_of_nil in Hx.
  - apply StronglySorted_inv in Hs as [Hs Hz].
    apply elem_of_cons in Hx as [->|Hx]; [|by apply IH].
    rewrite Forall_forall in Hz. apply Hz. apply elem_of_app. by right.
Qed.

Lemma oldest_elem count d e : e ∈ oldest count d -> e ∈ d.
Proof.
  intros H. apply subseteq_take in H. by rewrite sorted_by_last_seen_perm in H.
Qed.

Lemma NoDup_entries d : NoDup d.*1 -> NoDup d.
Proof. apply NoDup_fmap_1. Qed.

Lemma evicted_perm count d :
  NoDup d.*1 ->
  filter (fun e : string * conn_info => ~ (e.1 ∉ (oldest count d).*1)) d
  ≡ₚ oldest count d.
Proof.
  intros Hnd. apply NoDup_Permutation.
  - apply NoDup_filter. by apply NoDup_entries.
  - apply (sublist_NoDup _ (sorted_by_last_seen d)); [|apply sublist_take].
    rewrite sorted_by_last_seen_perm. by apply NoDup_entries.
  - intros e. rewrite list_elem_of_filter. split.
    + intros [Hk He]. apply dec_stable in Hk.
      apply list_elem_of_fmap in Hk as [e' [Hk He']].
      assert (e = e') as ->; [|done].
      eapply same_key_same_entry; eauto using oldest_elem.
    + intros He. split; [|by eapply oldest_elem].
      intros Hn. apply Hn. apply list_elem_of_fmap. eauto.
Qed.

Lemma kept_length count d :
  NoDup d.*1 ->
  length (filter (fun e => e.1 ∉ (oldest count d).*1) d)
  = (length d - min count (length d))%nat.
Proof.
  intros Hnd.
  pose proof (filter_app_complement (fun e => e.1 ∉ (oldest count d).*1) d) as Hp.
  apply Permutation_length in Hp. rewrite length_app in Hp.
  assert (Ho : length (oldest count d) = min count (length d)).
  { unfold oldest.
    by rewrite length_take, (Permutation_length (sorted_by_last_seen_perm d)). }
  rewrite (Permutation_length (evicted_perm count d Hnd)), Ho in Hp. lia.
Qed.

(** A kept entry was seen no earlier than a deleted one. *)
Lemma kept_not_older count d x y :
  NoDup d.*1 -> x ∈ oldest count d -> y ∈ d -> y.1 ∉ (oldest count d).*1 ->
  older x y.
Proof.
  intros Hnd Hx Hy Hk.
  apply (sorted_app_older (take count (sorted_by_last_seen d))
           (drop count (sorted_by_last_seen d))).
  - rewrite take_drop. apply sorted_by_last_seen_sorted.
  - exact Hx.
  - rewrite <- (sorted_by_last_seen_perm d), <- (take_drop count) in Hy.
    apply elem_of_app in Hy as [Hy|Hy]; [|done].
    exfalso. apply Hk. apply list_elem_of_fmap. eauto.
Qed.


Lemma cleanup_oldest_unlocked count d :
  NoDup d.*1 ->
  cleanup_oldest_connections count (State false d)
  = Some (State false
            (if (MAX_CONNECTIONS <=? length d)%nat
             then filter (fun e => e.1 ∉ (oldest count d).*1) d
             else d)).
Proof.
  intros Hnd. unfold cleanup_oldest_connections, acquire, release.
  cbn [lock_held active_connections mbind option_bind].
  destruct (MAX_CONNECTIONS <=? length d)%nat; [|done].
  by rewrite foldl_del_filter.
Qed.

Lemma filter_keys_subseteq (P : string * conn_info -> Prop)
    `{!forall e, Decision (P e)} d k :
  k ∈ (filter P d).*1 -> k ∈ d.*1.
Proof.
  intros Hin. apply list_elem_of_fmap in Hin as [e [-> He]].
  apply list_elem_of_filter in He as [_ He]. apply list_elem_of_fmap. eauto.
Qed.

(** A request from an address that is already in the registry. *)
Lemma track_known r d c :
  tracked r = true -> get (remote_addr r) d = Some c ->
  track_connection r (State false d)
  = Some (State false (set (remote_addr r) (seen_again r c) d)).
Proof.
  intros Ht Hg. unfold track_connection, tracked in *.
  apply negb_true_iff in Ht. rewrite Ht.
  cbn [active_connections]. unfold is_in. rewrite Hg. cbn [negb andb].
  cbn [mbind option_bind acquire lock_held active_connections].
  by rewrite Hg.
Qed.

(** A request from a new address while the registry has room. *)
Lemma track_new_room r d :
  tracked r = true -> get (remote_addr r) d = None ->
  (length d < MAX_CONNECTIONS)%nat ->
  track_connection r (State false d)
  = Some (State false (d ++ [(remote_addr r, new_connection r)])%list).
Proof.
  intros Ht Hg Hlen. unfold track_connection, tracked in *.
  apply negb_true_iff in Ht. rewrite Ht.
  cbn [active_connections]. unfold is_in. rewrite Hg. cbn [negb andb].
  replace (MAX_CONNECTIONS <=? length d)%nat with false
    by (symmetry; apply Nat.leb_gt; lia).
  cbn [mbind option_bind acquire lock_held active_connections].
  rewrite Hg.
  replace (MAX_CONNECTIONS <=? length d)%nat with false
    by (symmetry; apply Nat.leb_gt; lia).
  cbn [mbind option_bind acquire lock_held active_connections release].
  by rewrite set_absent.
Qed.

(** A request from a new address while the registry is full. *)
Lemma track_new_full r d :
  tracked r = true -> get (remote_addr r) d = None ->
  NoDup d.*1 -> length d = MAX_CONNECTIONS ->
  track_connection r (State false d)
  = Some (State false
            (filter (fun e => e.1 ∉ (oldest 10 d).*1) d
               ++ [(remote_addr r, new_connection r)])%list).
Proof.
  intros Ht Hg Hnd Hlen. unfold track_connection, tracked in *.
  apply negb_true_iff in Ht. rewrite Ht.
  cbn [active_connections]. unfold is_in. rewrite Hg. cbn [negb andb].
  rewrite cleanup_oldest_unlocked by done.
  replace (MAX_CONNECTIONS <=? length d)%nat with true
    by (symmetry; apply Nat.leb_le; lia).
  cbn [mbind option_bind acquire lock_held active_connections].
  set (kept := filter (fun e => e.1 ∉ (oldest 10 d).*1) d).
  assert (Hk : get (remote_addr r) kept = None).
  { apply get_None. intros Hin. apply filter_keys_subseteq in Hin.
    by apply get_None in Hg. }
  rewrite Hk.
  assert (Hkl : length kept = 90%nat).
  { unfold kept. rewrite kept_length by done. rewrite Hlen. reflexivity. }
  replace (MAX_CONNECTIONS <=? length kept)%nat with false
    by (rewrite Hkl; reflexivity).
  cbn [mbind option_bind acquire lock_held active_connections release].
  by rewrite set_absent.
Qed.

Lemma track_connection_ok r s :
  registry_ok s -> exists s', track_connection r s = Some s' /\ registry_ok s'.
Proof.
  destruct s as [l d]. intros (Hl & Hnd & Hlen). cbn [lock_held active_connections] in *.
  subst l. destruct (tracked r) eqn:Ht.
  - destruct (get (remote_addr r) d) as [c|] eqn:Hg.
    + rewrite (track_known r d c Ht Hg). eexists. split; [done|].
      destruct (set_present (remote_addr r) (seen_again r c) c d Hg) as [Hsl Hsk].
      repeat split; cbn [lock_held active_connections]; [by rewrite Hsk | by rewrite Hsl].
    + destruct (decide (length d < MAX_CONNECTIONS)%nat) as [Hlt|Hge].
      * rewrite (track_new_room r d Ht Hg Hlt). eexists. split; [done|].
        repeat split; cbn [lock_held active_connections].
        -- rewrite fmap_app. apply NoDup_app. split; [done|]. split.
           ++ intros k Hk Hk'. apply list_elem_of_singleton in Hk'. subst k.
              by apply get_None in Hg.
           ++ apply NoDup_singleton.
        -- rewrite length_app. cbn [length]. lia.
      * assert (Hfull : length d = MAX_CONNECTIONS) by lia.
        rewrite (track_new_full r d Ht Hg Hnd Hfull). eexists. split; [done|].
        repeat split; cbn [lock_held active_connections].
        -- rewrite fmap_app. apply NoDup_app. split; [by apply NoDup_keys_filter|].
           split.
           ++ intros k Hk Hk'. apply list_elem_of_singleton in Hk'. subst k.
              apply filter_keys_subseteq in Hk. by apply get_None in Hg.
           ++ apply NoDup_singleton.
        -- rewrite length_app, kept_length by done. rewrite Hfull.
           cbn. unfold MAX_CONNECTIONS. lia.
  - unfold tracked in Ht. apply negb_false_iff in Ht.
    unfold track_connection. rewrite Ht. eexists. split; [done|]. done.
Qed.

Lemma track_all_ok rs s :
  registry_ok s -> exists s', track_all rs s = Some s' /\ registry_ok s'.
Proof.
  revert s. induction rs as [|r rs IH]; intros s Hs; cbn [track_all].
  - eauto.
  - destruct (track_connection_ok r s Hs) as [s1 [-> Hs1]].
    cbn [mbind option_bind]. by apply IH.
Qed.

Lemma initial_ok : registry_ok initial.
Proof. repeat split; cbn; [constructor | lia]. Qed.


Lemma get_app_last k k' c d :
  get k (d ++ [(k', c)])%list
  = match get k d with
    | Some x => Some x
    | None => if String.eqb k' k then Some c else None
    end.
Proof.
  induction d as [|[k2 v2] rest IH]; cbn [app get]; [done|].
  by destruct (String.eqb k2 k).
Qed.

(** C7.  Tracking any sequence of requests from the empty registry ends (no
    request waits on the lock) with at most [MAX_CONNECTIONS] sessions; and
    when a request from a new address then finds the registry full, ten
    sessions are deleted, none of them seen later than a session that is
    kept, before the new session is stored: 91 sessions remain. *)
Theorem registry_never_exceeds_max (rs : list request) :
  exists s,
    track_all rs initial = Some s
    /\ lock_held s = false
    /\ (length (active_connections s) <= MAX_CONNECTIONS)%nat
    /\ forall r,
         tracked r = true ->
         get (remote_addr r) (active_connections s) = None ->
         length (active_connections s) = MAX_CONNECTIONS ->
         exists s',
           track_connection r s = Some s'
           /\ length (active_connections s') = 91%nat
           /\ get (remote_addr r) (active_connections s') = Some (new_connection r)
           /\ forall k c,
                get k (active_connections s) = Some c ->
                get k (active_connections s') = Some c
                \/ (get k (active_connections s') = None
                    /\ forall k' c',
                         get k' (active_connections s) = Some c' ->
                         get k' (active_connections s') = Some c' ->
                         (last_seen c <= last_seen c')%Q).
Proof.
  destruct (track_all_ok rs initial initial_ok) as [[l d] [Hrun (Hl & Hnd & Hlen)]].
  cbn [lock_held active_connections] in *. subst l.
  exists (State false d). cbn [lock_held active_connections].
  repeat split; [exact Hrun | exact Hlen |].
  intros r Ht Hg Hfull. rewrite (track_new_full r d Ht Hg Hnd Hfull).
  eexists. split; [reflexivity|]. cbn [active_connections].
  set (kept := filter (fun e => e.1 ∉ (oldest 10 d).*1) d).
  assert (Hkept : forall k c, get k kept = Some c ->
                    (k, c) ∈ d /\ k ∉ (oldest 10 d).*1).
  { intros k c Hk. apply get_Some_elem in Hk.
    apply list_elem_of_filter in Hk as [Hk Hin]. by split. }
  split; [|split].
  - unfold kept. rewrite length_app, kept_length by done.
    rewrite Hfull. reflexivity.
  - rewrite get_app_last.
    replace (get (remote_addr r) kept) with (@None conn_info).
    + by rewrite String.eqb_refl.
    + symmetry. apply get_None. intros Hin. apply filter_keys_subseteq in Hin.
      by apply get_None in Hg.
  - intros k c Hk. rewrite get_app_last.
    assert (Hne : String.eqb (remote_addr r) k = false).
    { apply String.eqb_neq. intros <-. congruence. }
    destruct (decide (k ∈ (oldest 10 d).*1)) as [Hin|Hout].
    + right. assert (Hgone : get k kept = None).
      { apply get_None. intros Hk'. apply list_elem_of_fmap in Hk' as [e [-> He]].
        apply list_elem_of_filter in He as [He _]. done. }
      rewrite Hgone, Hne. split; [done|].
      intros k' c' Hk' Hkeep. rewrite get_app_last in Hkeep.
      destruct (get k' kept) as [x|] eqn:Ex.
      * inversion Hkeep; subst x. destruct (Hkept _ _ Ex) as [Hd Ho].
        apply list_elem_of_fmap in Hin as [e [Hek He]].
        assert (e = (k, c)) as ->.
        { eapply same_key_same_entry; eauto using oldest_elem, get_Some_elem. }
        apply (kept_not_older 10 d (k, c) (k', c') Hnd He Hd Ho).
      * exfalso. destruct (String.eqb_spec (remote_addr r) k') as [<-|]; congruence.
    + left. replace (get k kept) with (Some c); [done|].
      symmetry. apply elem_get; [by apply NoDup_keys_filter|].
      apply list_elem_of_filter. split; [done | by apply get_Some_elem].
Qed.

(** The scenario of a full registry: addresses ["0"] to ["99"], seen at the
    times 0 to 99, fill it; the request of address ["100"] deletes the
    sessions of ["0"] to ["9"] and 91 sessions remain. *)
Example full_registry_scenario :
  let arrive n := request_from (PyStr.str (Z.of_nat n)) (inject_Z (Z.of_nat n)) in
  (fun s => length (active_connections s))
    <$> track_all (map arrive (seq 0 100)) initial = Some 100%nat
  /\ (fun s => (length (active_connections s),
                is_in "9" (active_connections s),
                is_in "10" (active_connections s),
                is_in "100" (active_connections s)))
       <$> track_all (map arrive (seq 0 101)) initial
     = Some (91%nat, false, true, true).
Proof. split; vm_compute; reflexivity. Qed.

End RegistryFacts.

(** ** Strings of digits and the [Range] header *)

Section StringFacts.
Import PyStr.

Lemma digits_without c s : is_digit c = false -> digits s = true -> without c s = true.
Proof.
  intros Hc. induction s as [|x r IH]; cbn [digits without]; [done|].
  intros [Hx Hr]%andb_true_iff. rewrite IH by done. rewrite andb_true_r.
  apply negb_true_iff, Ascii.eqb_neq. intros ->. congruence.
Qed.

Lemma append_cons x (r b : string) : String x r ++ b = String x (r ++ b).
Proof. reflexivity. Qed.

Lemma append_empty (b : string) : "" ++ b = b.
Proof. reflexivity. Qed.

Lemma without_app c a b :
  without c (a ++ b) = without c a && without c b.
Proof.
  induction a as [|x r IH]; rewrite ?append_cons, ?append_empty; cbn [without];
    [done|].
  by rewrite IH, andb_assoc.
Qed.

Lemma replace_without c old new s :
  without c s = true -> replace_from (String c old) new 0 s = s.
Proof.
  induction s as [|x r IH]; cbn [without replace_from]; [done|].
  intros [Hx Hr]%andb_true_iff. apply negb_true_iff, Ascii.eqb_neq in Hx.
  cbn [String.prefix]. destruct (ascii_dec c x) as [->|_]; [done|].
  by rewrite IH.
Qed.

Lemma split_without c s : without c s = true -> split c s = [s].
Proof.
  induction s as [|x r IH]; cbn [without split]; [done|].
  intros [Hx Hr]%andb_true_iff. apply negb_true_iff in Hx.
  by rewrite Hx, IH.
Qed.

Lemma split_app c a b :
  without c a = true -> split c (a ++ String c b) = a :: split c b.
Proof.
  induction a as [|x r IH]; rewrite ?append_cons, ?append_empty; cbn [without split].
  - intros _. by rewrite Ascii.eqb_refl.
  - intros [Hx Hr]%andb_true_iff. apply negb_true_iff in Hx.
    by rewrite Hx, IH.
Qed.

Lemma digit_not_space c : is_digit c = true -> is_space c = false.
Proof.
  unfold is_digit, is_space. intros [H1 H2]%andb_true_iff.
  apply Nat.leb_le in H1. apply Nat.leb_le in H2.
  destruct (Nat.leb_spec 9 (nat_of_ascii c)), (Nat.leb_spec (nat_of_ascii c) 13),
    (Nat.eqb_spec (nat_of_ascii c) 32), (Nat.eqb_spec (nat_of_ascii c) 133),
    (Nat.eqb_spec (nat_of_ascii c) 160); cbn [andb orb]; try reflexivity; lia.
Qed.

Lemma lstrip_digits s : digits s = true -> lstrip s = s.
Proof.
  destruct s as [|x r]; cbn [digits lstrip]; [done|].
  intros [Hx _]%andb_true_iff. by rewrite digit_not_space.
Qed.

Lemma rstrip_digits s : digits s = true -> rstrip s = s.
Proof.
  induction s as [|x r IH]; cbn [digits rstrip]; [done|].
  intros [Hx Hr]%andb_true_iff. rewrite IH by done.
  destruct r; [by rewrite digit_not_space | done].
Qed.

Lemma drop_underscores_digits b s :
  digits s = true -> s <> "" -> drop_underscores b s = Some s.
Proof.
  revert b. induction s as [|x r IH]; intros b; cbn [digits drop_underscores]; [done|].
  intros [Hx Hr]%andb_true_iff _.
  assert (Ascii.eqb x "_" = false) as ->.
  { apply Ascii.eqb_neq. intros ->. discriminate. }
  destruct r as [|y r'].
  - cbn [drop_underscores]. by rewrite Hx.
  - by rewrite IH.
Qed.

Lemma digits_string_of_uint d : digits (NilEmpty.string_of_uint d) = true.
Proof. induction d; cbn [NilEmpty.string_of_uint digits]; try done; by rewrite IHd. Qed.

Lemma str_digits n : (0 <= n)%Z -> digits (str n) = true /\ str n <> "".
Proof.
  intros Hn. unfold str. destruct n as [|p|p]; [done| |lia].
  cbn [Z.to_int NilZero.string_of_int]. unfold NilZero.string_of_uint.
  destruct (Pos.to_uint p) eqn:E; try done;
    rewrite <- E; (split; [apply digits_string_of_uint|]);
    rewrite E; discriminate.
Qed.

Lemma digits_value_str n : (0 <= n)%Z -> digits_value (str n) = Some n.
Proof.
  intros Hn. destruct (str_digits n Hn) as [Hd Hne].
  unfold digits_value. rewrite drop_underscores_digits by done.
  cbn [mbind option_bind].
  pose proof (DecimalZ.of_to n) as Hof. unfold str.
  destruct (Z.to_int n) as [d|d] eqn:E.
  - cbn [NilZero.string_of_int Z.of_int] in *. unfold NilZero.string_of_uint.
    destruct d; try (rewrite NilEmpty.usu; cbn [mbind option_bind]; by rewrite Hof).
    cbn. by rewrite <- Hof.
  - destruct n; [discriminate | discriminate | lia].
Qed.

(** [int(str(n)) == n] for a natural number. *)
Lemma int_str n : (0 <= n)%Z -> int (str n) = Some n.
Proof.
  intros Hn. destruct (str_digits n Hn) as [Hd Hne].
  unfold int, strip. rewrite lstrip_digits, rstrip_digits by done.
  rewrite <- (digits_value_str n Hn).
  destruct (str n) as [|c r]; [done|]. cbn [digits] in Hd.
  apply andb_true_iff in Hd as [Hc _].
  destruct c as [[] [] [] [] [] [] [] []]; try discriminate Hc; reflexivity.
Qed.

Lemma replace_bytes_prefix s :
  replace "bytes=" "" ("bytes=" ++ s) = replace "bytes=" "" s.
Proof.
  unfold replace. rewrite !append_cons, append_empty.
  cbn [replace_from]. 
  assert (String.prefix "bytes=" (String "b" (String "y" (String "t" (String "e"
            (String "s" (String "=" s)))))) = true) as ->.
  { cbn. by destruct s. }
  reflexivity.
Qed.

End StringFacts.

Section StreamFacts.
Import PyStr Stream.

Lemma without_b_digits s t :
  digits s = true -> digits t = true -> without "b" (s ++ "-" ++ t) = true.
Proof.
  intros Hs Ht. rewrite without_app, append_cons, append_empty. cbn [without].
  rewrite !digits_without by done. reflexivity.
Qed.

Lemma parse_range_explicit a b size :
  (0 <= a)%Z -> (0 <= b)%Z ->
  parse_range ("bytes=" ++ str a ++ "-" ++ str b) size = Some (a, b).
Proof.
  intros Ha Hb. destruct (str_digits a Ha) as [Hda Hna].
  destruct (str_digits b Hb) as [Hdb Hnb].
  unfold parse_range. rewrite replace_bytes_prefix.
  unfold replace. rewrite replace_without.
  2:{ by apply without_b_digits. }
  change (str a ++ "-" ++ str b) with (str a ++ String "-" (str b)).
  rewrite split_app by (by apply digits_without).
  rewrite split_without by (by apply digits_without).
  replace (String.eqb (str a) "") with false
    by (symmetry; by apply String.eqb_neq).
  replace (String.eqb (str b) "") with false
    by (symmetry; by apply String.eqb_neq).
  by rewrite !int_str.
Qed.

Lemma parse_range_open a size :
  (0 <= a)%Z ->
  parse_range ("bytes=" ++ str a ++ "-") size = Some (a, (size - 1)%Z).
Proof.
  intros Ha. destruct (str_digits a Ha) as [Hda Hna].
  unfold parse_range. rewrite replace_bytes_prefix.
  unfold replace. rewrite replace_without.
  2:{ rewrite <- (append_empty "-") at 1. by apply (without_b_digits _ ""). }
  change (str a ++ "-") with (str a ++ String "-" "").
  rewrite split_app by (by apply digits_without).
  cbn [split].
  replace (String.eqb (str a) "") with false
    by (symmetry; by apply String.eqb_neq).
  by rewrite !int_str.
Qed.

Lemma CHUNK_SIZE_pos : (0 < CHUNK_SIZE)%nat.
Proof. unfold CHUNK_SIZE. lia. Qed.

(** The reads of [generate_full] return the whole file, in order. *)
Lemma read_chunks_concat fuel (data : list Byte.byte) :
  (length data <= fuel)%nat -> concat (read_chunks fuel data) = data.
Proof.
  revert data. induction fuel as [|fuel IH]; intros data Hlen; cbn [read_chunks].
  - destruct data; [done | cbn in Hlen; lia].
  - pose proof CHUNK_SIZE_pos as Hpos.
    destruct (take CHUNK_SIZE data) as [|x chunk] eqn:E.
    + destruct data as [|y data]; [done|].
      destruct CHUNK_SIZE; [lia | discriminate].
    + cbn [concat]. rewrite IH.
      * by rewrite <- E, take_drop.
      * rewrite length_drop.
        destruct data; [by rewrite take_nil in E | cbn [length] in *; lia].
Qed.

Lemma generate_full_concat data : concat (generate_full data) = data.
Proof. by apply read_chunks_concat. Qed.

Lemma video_no_range cfg fs vt now tok filename :
  FS.isfile fs (file_path cfg vt now tok filename) = true ->
  video cfg fs vt now tok filename None
  = Answer (Response 200 (mime_of filename)
              [("Content-Length", str (FS.getsize fs (file_path cfg vt now tok filename)));
               ("Accept-Ranges", "bytes")]
              (generate_full (FS.read fs (file_path cfg vt now tok filename)))).
Proof.
  intros H. unfold video, file_path in *. cbv zeta. by rewrite H.
Qed.

Lemma video_with_range cfg fs vt now tok filename h :
  h <> "" ->
  FS.isfile fs (file_path cfg vt now tok filename) = true ->
  video cfg fs vt now tok filename (Some h)
  = let size := FS.getsize fs (file_path cfg vt now tok filename) in
    match parse_range h size with
    | None => Raised
    | Some (b1, b2) =>
        let byte1 := Z.max 0 (Z.min b1 (size - 1)) in
        let byte2 := Z.max byte1 (Z.min b2 (size - 1)) in
        Answer (Response 206 (mime_of filename)
                  [("Content-Range",
                    "bytes " ++ str byte1 ++ "-" ++ str byte2 ++ "/" ++ str size);
                   ("Accept-Ranges", "bytes");
                   ("Content-Length", str (byte2 - byte1 + 1))]
                  [])
    end.
Proof.
  intros Hh H. unfold video, file_path in *. cbv zeta. rewrite H. cbn [negb].
  destruct h; [done|]. reflexivity.
Qed.

Lemma range_header_nonempty (s : string) : "bytes=" ++ s <> "".
Proof. discriminate. Qed.

(** A request for the bytes [a] to [b] of a file that has them. *)
Lemma video_range cfg fs vt now tok filename a b :
  FS.isfile fs (file_path cfg vt now tok filename) = true ->
  (0 <= a <= b)%Z ->
  (b < FS.getsize fs (file_path cfg vt now tok filename))%Z ->
  video cfg fs vt now tok filename (Some ("bytes=" ++ str a ++ "-" ++ str b))
  = Answer (Response 206 (mime_of filename)
              [("Content-Range",
                "bytes " ++ str a ++ "-" ++ str b ++ "/"
                  ++ str (FS.getsize fs (file_path cfg vt now tok filename)));
               ("Accept-Ranges", "bytes");
               ("Content-Length", str (b - a + 1))]
              []).
Proof.
  intros Hf Hab Hb.
  rewrite video_with_range by (done || apply range_header_nonempty).
  cbv zeta. rewrite parse_range_explicit by lia.
  replace (Z.max 0 (Z.min a (FS.getsize fs (file_path cfg vt now tok filename) - 1)))
    with a by lia.
  replace (Z.max a (Z.min b (FS.getsize fs (file_path cfg vt now tok filename) - 1)))
    with b by lia.
  reflexivity.
Qed.

(** A request for the bytes from [a] on. *)
Lemma video_range_open cfg fs vt now tok filename a :
  FS.isfile fs (file_path cfg vt now tok filename) = true ->
  (0 <= a < FS.getsize fs (file_path cfg vt now tok filename))%Z ->
  video cfg fs vt now tok filename (Some ("bytes=" ++ str a ++ "-"))
  = Answer (Response 206 (mime_of filename)
              [("Content-Range",
                "bytes " ++ str a ++ "-"
                  ++ str (FS.getsize fs (file_path cfg vt now tok filename) - 1) ++ "/"
                  ++ str (FS.getsize fs (file_path cfg vt now tok filename)));
               ("Accept-Ranges", "bytes");
               ("Content-Length",
                str (FS.getsize fs (file_path cfg vt now tok filename) - 1 - a + 1))]
              []).
Proof.
  intros Hf Ha.
  rewrite video_with_range by (done || apply range_header_nonempty).
  cbv zeta. rewrite parse_range_open by lia.
  set (size := FS.getsize fs (file_path cfg vt now tok filename)) in *.
  replace (Z.max 0 (Z.min a (size - 1))) with a by lia.
  replace (Z.max a (Z.min (size - 1) (size - 1))) with (size - 1)%Z by lia.
  reflexivity.
Qed.

(** C2, as the code has it.  For the 1000-byte file and
    [Range: bytes=200-299] the route answers 206 with
    [Content-Range: bytes 200-299/1000] and [Content-Length: 100], but
    [generate_range] yields nothing: the body is empty, while the bytes 200
    to 299 of the file are 100 bytes. *)
Theorem range_response_has_empty_body :
  video example_settings example_fs ∅ 0 "" "a.mp4" (Some "bytes=200-299")
  = Answer (Response 206 "video/mp4"
              [("Content-Range", "bytes 200-299/1000");
               ("Accept-Ranges", "bytes");
               ("Content-Length", "100")]
              [])
  /\ length (take 100 (drop 200 (FS.read example_fs "/srv/share/a.mp4"))) = 100%nat.
Proof. split; vm_compute; reflexivity. Qed.

(** C8.  For a file of size [S] and [0 <= a < S], the header [bytes=a-] gets
    the same answer as the header [bytes=a-(S-1)]: status 206, the same
    [Content-Range] and [Content-Length], the same type and the same body. *)
Theorem open_range_same_as_explicit cfg fs vt now tok filename a :
  FS.isfile fs (file_path cfg vt now tok filename) = true ->
  (0 <= a < FS.getsize fs (file_path cfg vt now tok filename))%Z ->
  video cfg fs vt now tok filename (Some ("bytes=" ++ str a ++ "-"))
  = video cfg fs vt now tok filename
      (Some ("bytes=" ++ str a ++ "-"
               ++ str (FS.getsize fs (file_path cfg vt now tok filename) - 1))).
Proof.
  intros Hf Ha.
  rewrite video_range_open, video_range by (done || lia). reflexivity.
Qed.

Lemma open_range_same_as_explicit_witness :
  video example_settings example_fs ∅ 0 "" "a.mp4" (Some "bytes=900-")
  = video example_settings example_fs ∅ 0 "" "a.mp4" (Some "bytes=900-999").
Proof.
  apply (open_range_same_as_explicit example_settings example_fs ∅ 0 "" "a.mp4" 900).
  - vm_compute. reflexivity.
  - vm_compute. split; [discriminate | reflexivity].
Defined.

(** C9.  The route joins the requested path onto the root of the catalog
    and asks the file system for that path, nothing more: whenever the
    joined path names a file, the file is streamed with status 200.  With
    the catalog in [/srv/share], the request [../key.txt] has a [..]
    segment, its joined path is not inside the catalog, and the answer is
    the content of [/srv/key.txt]. *)
Theorem video_serves_outside_root :
  (forall cfg fs vt now tok filename,
     FS.isfile fs (file_path cfg vt now tok filename) = true ->
     exists r,
       video cfg fs vt now tok filename None = Answer r
       /\ status r = 200%Z
       /\ concat (body r) = FS.read fs (file_path cfg vt now tok filename))
  /\ In ".." (split "/" "../key.txt")
  /\ file_path example_settings ∅ 0 "" "../key.txt" = "/srv/share/../key.txt"
  /\ FS.inside (VIDEO_ROOT example_settings)
       (file_path example_settings ∅ 0 "" "../key.txt") = false
  /\ video example_settings example_fs ∅ 0 "" "../key.txt" None
     = Answer (Response 200 "video/mp4"
                 [("Content-Length", "1"); ("Accept-Ranges", "bytes")]
                 [[Byte.x42]])
  /\ FS.read example_fs "/srv/key.txt" = [Byte.x42].
Proof.
  split.
  - intros cfg fs vt now tok filename Hf. eexists. split; [by apply video_no_range|].
    split; [reflexivity|]. cbn [body]. apply generate_full_concat.
  - repeat split; try (vm_compute; reflexivity). cbn. tauto.
Qed.

End StreamFacts.

(** * Further properties *)

(** ** The token map under sweeps, invalidation and later calls *)

Section TokenMore.
Import Tokens.
Implicit Types (vt : gmap string token_info) (tok : string).

Lemma NoDup_fst_filter {A B} (P : A * B -> Prop) `{!forall e, Decision (P e)}
    (l : list (A * B)) :
  NoDup l.*1 -> NoDup (filter P l).*1.
Proof.
  induction l as [|e rest IH]; cbn [fmap list_fmap]; intros Hnd; [done|].
  apply NoDup_cons in Hnd as [Hk Hnd]. rewrite filter_cons.
  destruct (decide (P e)); [|by apply IH]. cbn [fmap list_fmap].
  apply NoDup_cons. split; [|by apply IH].
  intros Hin. apply Hk. apply list_elem_of_fmap in Hin as [e' [-> Hin]].
  apply list_elem_of_filter in Hin as [_ Hin]. apply list_elem_of_fmap. eauto.
Qed.

Lemma size_foldl_delete vt (ks : list string) :
  NoDup ks -> (forall k, k ∈ ks -> is_Some (vt !! k)) ->
  (size (foldl (fun m k => delete k m) vt ks) + length ks = size vt)%nat.
Proof.
  intros Hnd. revert vt. induction Hnd as [|k ks Hk Hnd IH]; intros vt Hin;
    cbn [foldl length]; [lia|].
  rewrite Nat.add_succ_r, IH.
  - rewrite map_size_delete_Some by (apply Hin, elem_of_cons; by left).
    destruct (Hin k) as [x Hx]; [apply elem_of_cons; by left|].
    assert (size vt <> 0%nat); [|lia].
    intros H0. apply map_size_empty_inv in H0. subst vt. by rewrite lookup_empty in Hx.
  - intros k' Hk'. rewrite lookup_delete_ne by (intros ->; done).
    apply Hin, elem_of_cons. by right.
Qed.

(** The number a sweep returns is the number of tokens it removed. *)
Lemma clean_size now vt :
  (size (clean_expired_tokens now vt).1 + (clean_expired_tokens now vt).2
   = size vt)%nat.
Proof.
  unfold clean_expired_tokens. cbn [fst snd]. apply size_foldl_delete.
  - unfold expired_tokens. apply NoDup_fst_filter, NoDup_fst_map_to_list.
  - intros k Hk. apply elem_of_expired_tokens in Hk as [ti [Hk _]]. eauto.
Qed.

Lemma is_expired_mono t1 t2 ti :
  (t1 <= t2)%Q -> is_expired t1 ti = true -> is_expired t2 ti = true.
Proof.
  intros Ht. destruct ti as [v|[e [u|]]]; cbn [is_expired used_time expire_time].
  - intros [H1 H2]%andb_true_iff. rewrite H1. cbn [andb]. q_cmp.
  - intros H. q_cmp.
  - intros [H1 H2]%andb_true_iff. rewrite H1. cbn [andb]. q_cmp.
Qed.

(** X1.  [clean_expired_tokens] returns the number of tokens it removed: the
    size of the map drops by exactly that number.  It keeps exactly the
    tokens its test does not put on the [expired] list, and a second call
    at the same clock reading removes nothing and returns 0. *)
Theorem sweep_removes_what_it_counts now vt :
  (size (clean_expired_tokens now vt).1 + (clean_expired_tokens now vt).2
   = size vt)%nat
  /\ (forall k ti, (clean_expired_tokens now vt).1 !! k = Some ti
        <-> vt !! k = Some ti /\ is_expired now ti = false)
  /\ (clean_expired_tokens now (clean_expired_tokens now vt).1
      = ((clean_expired_tokens now vt).1, 0%nat)).
Proof.
  assert (Hk : forall k ti, (clean_expired_tokens now vt).1 !! k = Some ti
             <-> vt !! k = Some ti /\ is_expired now ti = false).
  { intros k ti. rewrite clean_lookup. destruct (vt !! k) as [ti'|].
    - destruct (is_expired now ti') eqn:E.
      + split; [discriminate | intros [[= ->] H]; congruence].
      + split; [intros [= ->]; done | intros [[= ->] _]; done].
    - split; [discriminate | intros [H _]; discriminate]. }
  split; [apply clean_size|]. split; [exact Hk|].
  assert (Hsame : (clean_expired_tokens now (clean_expired_tokens now vt).1).1
                  = (clean_expired_tokens now vt).1).
  { apply map_eq. intros k. rewrite (clean_lookup now (clean_expired_tokens now vt).1).
    destruct ((clean_expired_tokens now vt).1 !! k) as [ti|] eqn:E; [|done].
    apply Hk in E as [_ ->]. done. }
  pose proof (clean_size now (clean_expired_tokens now vt).1) as Hs.
  rewrite Hsame in Hs.
  destruct (clean_expired_tokens now (clean_expired_tokens now vt).1) as [m n] eqn:E.
  cbn [fst snd] in *. subst m. f_equal. lia.
Qed.

(** X2.  An earlier sweep is absorbed by a later one: sweeping at [t1] and
    then at [t2 >= t1] leaves the same map as sweeping at [t2] alone, and
    the two counts add up to the count of the single sweep. *)
Theorem earlier_sweep_is_absorbed t1 t2 vt :
  (t1 <= t2)%Q ->
  (clean_expired_tokens t2 (clean_expired_tokens t1 vt).1).1
  = (clean_expired_tokens t2 vt).1
  /\ ((clean_expired_tokens t1 vt).2
      + (clean_expired_tokens t2 (clean_expired_tokens t1 vt).1).2
      = (clean_expired_tokens t2 vt).2)%nat.
Proof.
  intros Ht.
  assert (Hsame : (clean_expired_tokens t2 (clean_expired_tokens t1 vt).1).1
                  = (clean_expired_tokens t2 vt).1).
  { apply map_eq. intros k. rewrite !clean_lookup.
    destruct (vt !! k) as [ti|]; [|done].
    destruct (is_expired t1 ti) eqn:E1; [|done].
    by rewrite (is_expired_mono t1 t2 ti Ht E1). }
  split; [exact Hsame|].
  pose proof (clean_size t1 vt) as H1.
  pose proof (clean_size t2 vt) as H2.
  pose proof (clean_size t2 (clean_expired_tokens t1 vt).1) as H3.
  rewrite Hsame in H3. lia.
Qed.

Lemma earlier_sweep_is_absorbed_witness :
  (clean_expired_tokens 5000
     (clean_expired_tokens 400 (run_ops "pw" [Issue "pw" "a" 0; Issue "pw" "b" 4000])).1).1
  = (clean_expired_tokens 5000 (run_ops "pw" [Issue "pw" "a" 0; Issue "pw" "b" 4000])).1.
Proof.
  refine (proj1 (earlier_sweep_is_absorbed 400 5000
                   (run_ops "pw" [Issue "pw" "a" 0; Issue "pw" "b" 4000]) _)).
  lra.
Defined.


Lemma is_token_valid_ext k now vt1 vt2 :
  vt1 !! k = vt2 !! k -> is_token_valid k now vt1 = is_token_valid k now vt2.
Proof. intros H. unfold is_token_valid. by rewrite H. Qed.

(** A token a sweep removes is one [is_token_valid] rejects from then on. *)
Lemma expired_is_invalid k t now ti vt :
  (t <= now)%Q -> vt !! k = Some ti -> is_expired t ti = true ->
  is_token_valid k now vt = false.
Proof.
  intros Ht Hk He. unfold is_token_valid. case_decide; [done|]. rewrite Hk.
  destruct ti as [v|[e [u|]]]; cbn [is_expired used_time expire_time] in *.
  - apply andb_true_iff in He as [H1 H2].
    assert (Qeq_bool v (-1) = false) as ->.
    { destruct (Qeq_bool v (-1)) eqn:E; [|done].
      apply Qeq_bool_iff in E. q_cmp. }
    q_cmp.
  - q_cmp.
  - apply andb_true_iff in He as [H1 H2]. q_cmp.
Qed.

Lemma clean_keeps_validity k t now vt :
  (t <= now)%Q ->
  is_token_valid k now (clean_expired_tokens t vt).1 = is_token_valid k now vt.
Proof.
  intros Ht. destruct (vt !! k) as [ti|] eqn:Hk.
  - destruct (is_expired t ti) eqn:He.
    + rewrite (expired_is_invalid k t now ti vt Ht Hk He).
      apply is_token_valid_absent. by rewrite clean_lookup, Hk, He.
    + apply is_token_valid_ext. by rewrite clean_lookup, Hk, He.
  - apply is_token_valid_ext. by rewrite clean_lookup, Hk.
Qed.

(** X3.  A call made with another token, or a maintenance pass, never
    changes what [is_token_valid] answers for a token at any time from the
    clock reading of the sweep the call runs: sweeps only remove tokens
    that are already invalid, and the other calls only touch their own
    key. *)
Theorem other_operations_keep_validity pw op k now vt :
  touches k op = false ->
  (forall t, sweep_clock op = Some t -> (t <= now)%Q) ->
  is_token_valid k now (apply_op pw vt op) = is_token_valid k now vt.
Proof.
  intros Hk Hc. destruct op as [password token t|tok ts tu|tok|t];
    cbn [apply_op touches sweep_clock] in *.
  - apply String.eqb_neq in Hk. unfold verify_secret. case_decide; [|done].
    cbn [snd]. apply is_token_valid_ext. by rewrite lookup_insert_ne.
  - apply String.eqb_neq in Hk. unfold index. case_decide; [done|]. cbv zeta.
    rewrite <- (clean_keeps_validity k ts now vt) by (by apply Hc).
    destruct (_ !! tok) as [[v|d]|]; [destruct (Qgtb v 0)|destruct (used_time d)|];
      cbn [snd]; try done; apply is_token_valid_ext; by rewrite lookup_insert_ne.
  - apply String.eqb_neq in Hk. unfold invalidate_token. case_decide; [done|].
    destruct (vt !! tok); [|done]. apply is_token_valid_ext.
    by rewrite lookup_delete_ne.
  - apply clean_keeps_validity. by apply Hc.
Qed.

Lemma other_operations_keep_validity_witness :
  is_token_valid "b" 500
    (apply_op "pw" (run_ops "pw" [Issue "pw" "a" 0; Issue "pw" "b" 400])
       (Consume "a" 450 450))
  = is_token_valid "b" 500 (run_ops "pw" [Issue "pw" "a" 0; Issue "pw" "b" 400]).
Proof.
  apply (other_operations_keep_validity "pw" (Consume "a" 450 450) "b" 500).
  - reflexivity.
  - intros t [= <-]. lra.
Defined.

(** X4.  After [invalidate_token] the token is invalid at every time and a
    [/] request with it gets the "link no longer valid" alert; the other
    tokens are untouched, and invalidating again changes nothing. *)
Theorem invalidate_token_removes_for_good tok vt :
  (forall now, is_token_valid tok now (invalidate_token tok vt) = false)
  /\ (forall ts tu, tok <> "" ->
        (index tok ts tu (invalidate_token tok vt)).1 = AlertInvalid)
  /\ (forall k, k <> tok -> invalidate_token tok vt !! k = vt !! k)
  /\ invalidate_token tok (invalidate_token tok vt) = invalidate_token tok vt.
Proof.
  assert (Hgone : tok <> "" -> invalidate_token tok vt !! tok = None).
  { intros Hne. unfold invalidate_token. rewrite decide_False by done.
    destruct (vt !! tok) eqn:E; [apply lookup_delete_eq | done]. }
  split; [|split; [|split]].
  - intros now. destruct (decide (tok = "")) as [->|Hne].
    + unfold is_token_valid. by rewrite decide_True.
    + by apply is_token_valid_absent, Hgone.
  - intros ts tu Hne. unfold index. rewrite decide_False by done. cbv zeta.
    by rewrite clean_lookup, Hgone.
  - intros k Hk. unfold invalidate_token. case_decide; [done|].
    destruct (vt !! tok); [|done]. by rewrite lookup_delete_ne.
  - destruct (decide (tok = "")) as [->|Hne].
    + unfold invalidate_token. by rewrite !decide_True.
    + unfold invalidate_token at 1. rewrite decide_False by done.
      by rewrite Hgone.
Qed.

(** A used record stays as it is, or goes. *)
Lemma used_apply_op pw vt op tok e t :
  issues tok op = false ->
  vt !! tok = Some (TDict (TokenDict e (Some t))) ->
  apply_op pw vt op !! tok = None
  \/ apply_op pw vt op !! tok = Some (TDict (TokenDict e (Some t))).
Proof.
  intros Hi Hl.
  assert (Hc : forall ts, (clean_expired_tokens ts vt).1 !! tok = None
             \/ (clean_expired_tokens ts vt).1 !! tok
                = Some (TDict (TokenDict e (Some t)))).
  { intros ts. rewrite clean_lookup, Hl. destruct (is_expired ts _); auto. }
  destruct op as [password token now|tok' ts tu|tok'|now]; cbn [apply_op issues] in *.
  - apply String.eqb_neq in Hi. unfold verify_secret. case_decide; [|by right].
    cbn [snd]. right. by rewrite lookup_insert_ne.
  - unfold index. case_decide; [by right|]. cbv zeta.
    destruct (decide (tok' = tok)) as [->|Hne].
    + destruct (Hc ts) as [-> | ->]; cbn [used_time snd]; auto.
    + destruct (_ !! tok') as [[v|d]|]; [destruct (Qgtb v 0)|destruct (used_time d)|];
        cbn [snd]; rewrite ?lookup_insert_ne by done; apply Hc.
  - unfold invalidate_token. case_decide; [by right|].
    destruct (vt !! tok') eqn:E; [|by right].
    destruct (decide (tok' = tok)) as [->|Hne].
    + left. apply lookup_delete_eq.
    + right. by rewrite lookup_delete_ne.
  - apply Hc.
Qed.

(** X5.  [used_time] is written once: after the first use of a token, no
    sequence of later calls (as long as none issues a new token under the
    same identifier) changes the record; it is either still there with the
    same [expire_time] and [used_time], or gone. *)
Theorem used_time_is_written_once pw ops tok e t vt :
  vt !! tok = Some (TDict (TokenDict e (Some t))) ->
  forallb (fun op => negb (issues tok op)) ops = true ->
  foldl (apply_op pw) vt ops !! tok = None
  \/ foldl (apply_op pw) vt ops !! tok = Some (TDict (TokenDict e (Some t))).
Proof.
  intros Hl Hops. revert vt Hl.
  induction ops as [|op ops IH]; intros vt Hl; cbn [foldl]; [by right|].
  cbn [forallb] in Hops. apply andb_true_iff in Hops as [Hop Hops].
  apply negb_true_iff in Hop.
  destruct (used_apply_op pw vt op tok e t Hop Hl) as [Hn|Hs].
  - left. by apply absent_foldl_apply_op.
  - by apply IH.
Qed.

Lemma used_time_is_written_once_witness :
  foldl (apply_op "pw") (index "tok" 1 2 (run_ops "pw" [Issue "pw" "tok" 0])).2
    [Consume "tok" 5 6; Sweep 7; Issue "pw" "other" 8; Consume "tok" 9 10] !! "tok"
  = None
  \/ foldl (apply_op "pw") (index "tok" 1 2 (run_ops "pw" [Issue "pw" "tok" 0])).2
       [Consume "tok" 5 6; Sweep 7; Issue "pw" "other" 8; Consume "tok" 9 10] !! "tok"
     = Some (TDict (TokenDict (0 + 300) (Some 2%Q))).
Proof.
  apply (used_time_is_written_once "pw"
           [Consume "tok" 5 6; Sweep 7; Issue "pw" "other" 8; Consume "tok" 9 10]
           "tok" (0 + 300) 2).
  - vm_compute. reflexivity.
  - reflexivity.
Defined.

(** X6.  What a [/] request answers on a structured token.  Unused: the page
    in secret mode, storing the time of use, unless the sweep of the request
    finds [0 < expire_time < t_sweep], in which case the token is removed
    and the answer is "no longer valid"; at the very instant [expire_time]
    the request still succeeds although [is_token_valid] already answers
    [False].  Used at [t]: "cannot be used twice" while
    [t_sweep <= t + 3600], and "no longer valid", with the token removed,
    after that. *)
Theorem index_on_record tok e ts tu vt :
  tok <> "" ->
  (vt !! tok = Some (TDict (TokenDict e None)) ->
     ((ts <= e \/ e <= 0)%Q ->
        (index tok ts tu vt).1 = Page true
        /\ (index tok ts tu vt).2 !! tok = Some (TDict (TokenDict e (Some tu))))
     /\ ((0 < e /\ e < ts)%Q ->
        (index tok ts tu vt).1 = AlertInvalid
        /\ (index tok ts tu vt).2 !! tok = None)
     /\ is_token_valid tok e vt = false)
  /\ (forall t, vt !! tok = Some (TDict (TokenDict e (Some t))) ->
     ((ts <= t + 3600)%Q ->
        (index tok ts tu vt).1 = AlertReused
        /\ (index tok ts tu vt).2 !! tok = Some (TDict (TokenDict e (Some t))))
     /\ ((t + 3600 < ts)%Q ->
        (index tok ts tu vt).1 = AlertInvalid
        /\ (index tok ts tu vt).2 !! tok = None)).
Proof.
  intros Hne. split.
  - intros Hl. split; [|split].
    + intros Hts.
      assert (Hkeep : is_expired ts (TDict (TokenDict e None)) = false).
      { cbn [is_expired used_time expire_time]. apply andb_false_iff.
        destruct Hts; [right | left]; q_cmp. }
      unfold index. rewrite decide_False by done. cbv zeta.
      rewrite clean_lookup, Hl, Hkeep. cbn [used_time expire_time fst snd].
      split; [done | apply lookup_insert_eq].
    + intros [H0 Hts].
      assert (Hexp : is_expired ts (TDict (TokenDict e None)) = true).
      { cbn [is_expired used_time expire_time]. apply andb_true_iff. split; q_cmp. }
      unfold index. rewrite decide_False by done. cbv zeta.
      rewrite clean_lookup, Hl, Hexp. cbn [fst snd].
      split; [done|]. by rewrite clean_lookup, Hl, Hexp.
    + unfold is_token_valid. rewrite decide_False by done. rewrite Hl.
      cbn [used_time expire_time]. q_cmp.
  - intros t Hl. split.
    + intros Hts. destruct (index_used tok e t ts tu vt Hne Hl Hts) as [-> Hk].
      by split.
    + intros Hts.
      assert (Hexp : is_expired ts (TDict (TokenDict e (Some t))) = true).
      { cbn [is_expired used_time]. q_cmp. }
      unfold index. rewrite decide_False by done. cbv zeta.
      rewrite clean_lookup, Hl, Hexp. cbn [fst snd].
      split; [done|]. by rewrite clean_lookup, Hl, Hexp.
Qed.

Lemma index_on_record_witness :
  is_token_valid "tok" (0 + 300) (run_ops "pw" [Issue "pw" "tok" 0]) = false
  /\ (index "tok" (0 + 300) 301 (run_ops "pw" [Issue "pw" "tok" 0])).1 = Page true.
Proof.
  destruct (index_on_record "tok" (0 + 300) (0 + 300) 301
              (run_ops "pw" [Issue "pw" "tok" 0])) as [H _]; [discriminate|].
  destruct H as (H1 & _ & H3); [vm_compute; reflexivity|].
  split; [exact H3|]. apply H1. left. lra.
Defined.

(** X7.  No sequence of [/verify-secret], [/], [/invalidate-token] and
    maintenance calls, starting from the empty map, ever stores a bare
    number: the branches for numeric tokens are never taken by the running
    server. *)
Theorem no_history_stores_a_number pw ops k :
  match run_ops pw ops !! k with
  | Some (TNum _) => False
  | _ => True
  end.
Proof.
  destruct (run_ops pw ops !! k) as [[v|d]|] eqn:E; [|done|done].
  destruct (run_ops_records pw ops k _ E) as [d [Hd _]]. discriminate.
Qed.

End TokenMore.

(** ** The registry under telemetry and maintenance *)

Section RegistryMore.
Import Registry.
Implicit Types (d : connections) (k : string) (c : conn_info).

Lemma filter_ext_elem {A} (P Q : A -> Prop) `{!forall x, Decision (P x)}
    `{!forall x, Decision (Q x)} (l : list A) :
  (forall x, x ∈ l -> P x <-> Q x) -> filter P l = filter Q l.
Proof.
  induction l as [|x l IH]; intros Hpq; [done|].
  assert (Hx : P x <-> Q x) by (apply Hpq, elem_of_cons; by left).
  assert (Hl : filter P l = filter Q l).
  { apply IH. intros y Hy. apply Hpq, elem_of_cons. by right. }
  rewrite !filter_cons, Hl.
  destruct (decide (P x)), (decide (Q x)); tauto || done.
Qed.

Lemma foldl_del_keys_filter (ks : list string) d :
  NoDup d.*1 ->
  foldl (fun acc ip => del ip acc) d ks = filter (fun e => e.1 ∉ ks) d.
Proof.
  revert d. induction ks as [|k ks IH]; intros d Hnd; cbn [foldl].
  - symmetry. clear Hnd. induction d as [|x d IHd]; [done|].
    rewrite filter_cons_True by apply not_elem_of_nil. by f_equal.
  - rewrite IH, del_filter by (try rewrite del_filter by done; try apply NoDup_keys_filter; done).
    rewrite list_filter_filter. apply list_filter_iff. intros x.
    rewrite not_elem_of_cons. tauto.
Qed.

(** What the eviction pass leaves: the sessions seen within the timeout, in
    their order. *)
Lemma evict_expired_filter t d :
  NoDup d.*1 ->
  foldl (fun acc ip => del ip acc) d (expired_connections t d)
  = filter (fun e => Qgtb (t - last_seen e.2) CONNECTION_TIMEOUT = false) d.
Proof.
  intros Hnd. rewrite foldl_del_keys_filter by done.
  apply filter_ext_elem. intros e He. unfold expired_connections. split.
  - intros Hout. destruct (Qgtb (t - last_seen e.2) CONNECTION_TIMEOUT) eqn:E; [|done].
    exfalso. apply Hout. apply list_elem_of_fmap. exists e. split; [done|].
    by apply list_elem_of_filter.
  - intros Hfresh Hin. apply list_elem_of_fmap in Hin as [e' [Hk He']].
    apply list_elem_of_filter in He' as [Hexp He'].
    assert (e = e') as <- by (eapply same_key_same_entry; eauto). congruence.
Qed.

Lemma get_filter (P : string * conn_info -> Prop) `{!forall e, Decision (P e)} d k c :
  NoDup d.*1 ->
  get k (filter P d) = Some c <-> get k d = Some c /\ P (k, c).
Proof.
  intros Hnd. split.
  - intros Hg. apply get_Some_elem, list_elem_of_filter in Hg as [HP Hin].
    split; [by apply elem_get | done].
  - intros [Hg HP]. apply elem_get; [by apply NoDup_keys_filter|].
    apply list_elem_of_filter. split; [done | by apply get_Some_elem].
Qed.

Lemma evict_expired_unlocked t d :
  NoDup d.*1 ->
  evict_expired t (State false d)
  = Some (State false
            (filter (fun e => Qgtb (t - last_seen e.2) CONNECTION_TIMEOUT = false) d),
          length d).
Proof.
  intros Hnd. unfold evict_expired, acquire, release.
  cbn [lock_held active_connections mbind option_bind].
  by rewrite evict_expired_filter.
Qed.

(** X8.  The eviction pass of [cleanup_expired_connections] on a registry
    with one session per address: it reports the number of sessions before
    the deletions, keeps the remaining sessions in their order, and a
    session is there afterwards exactly when it was there before, unchanged,
    and was last seen at most [CONNECTION_TIMEOUT] seconds ago. *)
Theorem evict_expired_keeps_the_recent t s :
  registry_ok s ->
  exists s',
    evict_expired t s = Some (s', length (active_connections s))
    /\ registry_ok s'
    /\ active_connections s' `sublist_of` active_connections s
    /\ forall k c,
         get k (active_connections s') = Some c
         <-> get k (active_connections s) = Some c
             /\ (t - last_seen c <= CONNECTION_TIMEOUT)%Q.
Proof.
  destruct s as [l d]. intros (Hl & Hnd & Hlen). cbn [lock_held active_connections] in *.
  subst l. rewrite evict_expired_unlocked by done. eexists. split; [reflexivity|].
  cbn [lock_held active_connections]. split; [|split].
  - repeat split; cbn [lock_held active_connections].
    + by apply NoDup_keys_filter.
    + etrans; [apply length_filter | done].
  - apply sublist_filter.
  - intros k c. rewrite get_filter by done. cbn [snd].
    split; intros [H1 H2]; (split; [done|]).
    + by apply Qgtb_false.
    + by apply Qgtb_false.
Qed.

Lemma evict_expired_keeps_the_recent_witness :
  exists s',
    evict_expired 100 (State false [("a", new_connection (request_from "a" 60));
                                    ("b", new_connection (request_from "b" 80))])
    = Some (s', 2%nat)
    /\ get "a" (active_connections s') = None
    /\ get "b" (active_connections s') = Some (new_connection (request_from "b" 80)).
Proof.
  destruct (evict_expired_keeps_the_recent 100
              (State false [("a", new_connection (request_from "a" 60));
                            ("b", new_connection (request_from "b" 80))]))
    as (s' & Hrun & _ & _ & Hget).
  - split; [reflexivity|]. split.
    + apply (bool_decide_unpack _). vm_compute. exact I.
    + cbn [active_connections length]. unfold MAX_CONNECTIONS. lia.
  - exists s'. split; [exact Hrun|]. split.
    + destruct (get "a" (active_connections s')) as [c|] eqn:E; [|reflexivity].
      apply Hget in E as [E Hage]. cbn in E. inversion E; subst c.
      cbn in Hage. unfold CONNECTION_TIMEOUT in Hage. lra.
    + apply Hget. split; [reflexivity|]. cbn. unfold CONNECTION_TIMEOUT. lra.
Defined.


Lemma get_set_eq k c d : get k (set k c d) = Some c.
Proof.
  induction d as [|[k' v] rest IH]; cbn [set get].
  - by rewrite String.eqb_refl.
  - destruct (String.eqb k' k) eqn:E; cbn [get]; [by rewrite String.eqb_refl|].
    by rewrite E.
Qed.

Lemma get_set_ne k k' c d : k' <> k -> get k (set k' c d) = get k d.
Proof.
  intros Hne. induction d as [|[k2 v] rest IH]; cbn [set get].
  - by apply String.eqb_neq in Hne as ->.
  - destruct (String.eqb_spec k2 k') as [->|Hk2]; cbn [get].
    + by apply String.eqb_neq in Hne as ->.
    + by rewrite IH.
Qed.

Lemma update_status_unlocked ip data now d :
  update_status ip data now (State false d)
  = Some (State false
            match get ip d with
            | Some c => set ip (reported data now c) d
            | None => d
            end).
Proof. reflexivity. Qed.

Lemma update_status_ok ip data now s :
  registry_ok s ->
  exists s', update_status ip data now s = Some s' /\ registry_ok s'
    /\ (active_connections s').*1 = (active_connections s).*1.
Proof.
  destruct s as [l d]. intros (Hl & Hnd & Hlen). cbn [lock_held active_connections] in *.
  subst l. rewrite update_status_unlocked. eexists. split; [reflexivity|].
  cbn [active_connections]. destruct (get ip d) as [c|] eqn:Hg.
  - destruct (set_present ip (reported data now c) c d Hg) as [Hsl Hsk].
    repeat split; cbn [lock_held active_connections]; by rewrite ?Hsk, ?Hsl.
  - by repeat split.
Qed.

(** X9.  [update_status] never adds or removes a session: a report from an
    unknown address leaves the registry as it is; a report from a known
    address replaces the video, position, duration and [last_seen] of that
    session only.  The refreshed session survives every eviction pass that
    runs within [CONNECTION_TIMEOUT] seconds of the report. *)
Theorem update_status_touches_one_session ip data now s :
  registry_ok s ->
  exists s',
    update_status ip data now s = Some s'
    /\ (active_connections s').*1 = (active_connections s).*1
    /\ (get ip (active_connections s) = None -> s' = s)
    /\ (forall c, get ip (active_connections s) = Some c ->
          get ip (active_connections s') = Some (reported data now c))
    /\ (forall k, k <> ip ->
          get k (active_connections s') = get k (active_connections s))
    /\ (forall c t, get ip (active_connections s) = Some c ->
          (t - now <= CONNECTION_TIMEOUT)%Q ->
          exists s'' n,
            evict_expired t s' = Some (s'', n)
            /\ get ip (active_connections s'') = Some (reported data now c)).
Proof.
  intros Hok. destruct (update_status_ok ip data now s Hok) as (s' & Hrun & Hok' & Hkeys).
  exists s'. split; [exact Hrun|]. split; [exact Hkeys|].
  destruct s as [l d]. destruct Hok as (Hl & Hnd & Hlen).
  cbn [lock_held active_connections] in *. subst l.
  rewrite update_status_unlocked in Hrun. inversion Hrun; subst s'. clear Hrun.
  cbn [active_connections] in *.
  split; [|split; [|split]].
  - by intros ->.
  - intros c ->. apply get_set_eq.
  - intros k Hk. destruct (get ip d); [by apply get_set_ne | done].
  - intros c t Hg Ht. rewrite Hg in *.
    destruct Hok' as (_ & Hnd' & _). cbn [active_connections] in Hnd'.
    rewrite evict_expired_unlocked by done. do 2 eexists. split; [reflexivity|].
    cbn [active_connections]. apply get_filter; [done|].
    split; [apply get_set_eq|]. cbn [snd reported last_seen]. by apply Qgtb_false.
Qed.

Lemma update_status_touches_one_session_witness :
  exists s',
    update_status "a" (StatusReport (Some "film.mp4") (Some 12%Z) None) 70
      (State false [("a", new_connection (request_from "a" 60))]) = Some s'
    /\ (active_connections s').*1 = ["a"].
Proof.
  destruct (update_status_touches_one_session "a"
              (StatusReport (Some "film.mp4") (Some 12%Z) None) 70
              (State false [("a", new_connection (request_from "a" 60))]))
    as (s' & Hrun & Hkeys & _).
  - split; [reflexivity|]. split.
    + apply (bool_decide_unpack _). vm_compute. exact I.
    + cbn [active_connections length]. unfold MAX_CONNECTIONS. lia.
  - exists s'. split; [exact Hrun | exact Hkeys].
Defined.

Lemma evict_expired_ok t s :
  registry_ok s -> exists s' n, evict_expired t s = Some (s', n) /\ registry_ok s'.
Proof.
  destruct s as [l d]. intros (Hl & Hnd & Hlen). cbn [lock_held active_connections] in *.
  subst l. rewrite evict_expired_unlocked by done. do 2 eexists. split; [reflexivity|].
  repeat split; cbn [lock_held active_connections].
  - by apply NoDup_keys_filter.
  - etrans; [apply length_filter | done].
Qed.

(** X10.  Under every sequence of tracked requests, status reports and
    eviction passes, starting from the empty registry, no call waits on the
    lock, the registry keeps one session per address, and it never holds
    more than [MAX_CONNECTIONS] sessions. *)
Theorem registry_operations_keep_it_bounded (ops : list registry_op) :
  exists s,
    run_registry ops initial = Some s
    /\ lock_held s = false
    /\ NoDup (active_connections s).*1
    /\ (length (active_connections s) <= MAX_CONNECTIONS)%nat.
Proof.
  assert (H : forall s, registry_ok s ->
            exists s', run_registry ops s = Some s' /\ registry_ok s').
  { induction ops as [|op ops IH]; intros s Hs; cbn [run_registry]; [eauto|].
    assert (exists s1, apply_registry_op op s = Some s1 /\ registry_ok s1)
      as (s1 & -> & Hs1).
    { destruct op as [r|ip data now|t]; cbn [apply_registry_op].
      - by apply track_connection_ok.
      - destruct (update_status_ok ip data now s Hs) as (s1 & ? & ? & _). eauto.
      - destruct (evict_expired_ok t s Hs) as (s1 & n & -> & ?). eauto. }
    cbn [mbind option_bind]. by apply IH. }
  destruct (H initial initial_ok) as (s & Hrun & Hok). exists s.
  split; [exact Hrun | exact Hok].
Qed.


(** X11.  [track_connection] leaves the registry alone for [/monitor] and
    [/monitor-data]; for a known address it refreshes [last_seen] and the
    port of that session and changes nothing else (same addresses, same
    order); for a new address below the capacity it appends a fresh session
    at the end. *)
Theorem track_connection_refreshes_or_appends r s :
  registry_ok s ->
  (tracked r = false -> track_connection r s = Some s)
  /\ (forall c,
        tracked r = true ->
        get (remote_addr r) (active_connections s) = Some c ->
        exists s',
          track_connection r s = Some s'
          /\ (active_connections s').*1 = (active_connections s).*1
          /\ get (remote_addr r) (active_connections s') = Some (seen_again r c)
          /\ forall k, k <> remote_addr r ->
               get k (active_connections s') = get k (active_connections s))
  /\ (tracked r = true ->
      get (remote_addr r) (active_connections s) = None ->
      (length (active_connections s) < MAX_CONNECTIONS)%nat ->
      track_connection r s
      = Some (State false
                (active_connections s ++ [(remote_addr r, new_connection r)])%list)).
Proof.
  destruct s as [l d]. intros (Hl & Hnd & Hlen). cbn [lock_held active_connections] in *.
  subst l. split; [|split].
  - intros Ht. unfold tracked in Ht. apply negb_false_iff in Ht.
    unfold track_connection. by rewrite Ht.
  - intros c Ht Hg. rewrite (track_known r d c Ht Hg). eexists. split; [reflexivity|].
    cbn [active_connections].
    destruct (set_present (remote_addr r) (seen_again r c) c d Hg) as [_ Hk].
    split; [exact Hk|]. split; [apply get_set_eq|].
    intros k Hne. by apply get_set_ne.
  - intros Ht Hg Hroom. by apply track_new_room.
Qed.

Lemma track_connection_refreshes_or_appends_witness :
  track_connection (request_from "b" 61)
    (State false [("a", new_connection (request_from "a" 60))])
  = Some (State false [("a", new_connection (request_from "a" 60));
                       ("b", new_connection (request_from "b" 61))]).
Proof.
  refine (proj2 (proj2 (track_connection_refreshes_or_appends (request_from "b" 61)
                          (State false [("a", new_connection (request_from "a" 60))])
                          _)) _ _ _).
  - split; [reflexivity|]. split.
    + apply (bool_decide_unpack _). vm_compute. exact I.
    + cbn [active_connections length]. unfold MAX_CONNECTIONS. lia.
  - reflexivity.
  - reflexivity.
  - cbn [active_connections length]. unfold MAX_CONNECTIONS. lia.
Defined.

Lemma filter_insert_by_last_seen q x d :
  filter (fun e => Qeq_bool (last_seen e.2) q = true) (insert_by_last_seen x d)
  = filter (fun e => Qeq_bool (last_seen e.2) q = true) (x :: d).
Proof.
  induction d as [|y rest IH]; cbn [insert_by_last_seen]; [done|].
  destruct (Qle_bool (last_seen x.2) (last_seen y.2)) eqn:E; [done|].
  apply Qle_bool_false in E.
  rewrite (filter_cons _ y), IH, !(filter_cons _ x), (filter_cons _ y).
  destruct (decide (Qeq_bool (last_seen x.2) q = true)) as [Hx|Hx]; [|done].
  destruct (decide (Qeq_bool (last_seen y.2) q = true)) as [Hy|Hy]; [|done].
  exfalso. apply Qeq_bool_iff in Hx, Hy. lra.
Qed.

(** X12.  The order in which [cleanup_oldest_connections] deletes:
    [sorted_by_last_seen] is a permutation of the registry, ordered by
    [last_seen], and stable, so sessions seen at the same time are deleted
    in the order in which they were inserted. *)
Theorem sorted_by_last_seen_is_stable d :
  sorted_by_last_seen d ≡ₚ d
  /\ StronglySorted older (sorted_by_last_seen d)
  /\ forall q,
       filter (fun e => Qeq_bool (last_seen e.2) q = true) (sorted_by_last_seen d)
       = filter (fun e => Qeq_bool (last_seen e.2) q = true) d.
Proof.
  split; [apply sorted_by_last_seen_perm|]. split; [apply sorted_by_last_seen_sorted|].
  intros q. induction d as [|x rest IH]; [done|].
  unfold sorted_by_last_seen in *. cbn [foldr].
  rewrite filter_insert_by_last_seen, !(filter_cons _ x), IH. done.
Qed.

End RegistryMore.

Section MaintenanceFacts.
Import Registry Maintenance.

(** X13.  The sleep interval of the maintenance loop is between 30 and 300
    seconds, never longer for more connections, and 300 exactly when there
    is no connection. *)
Theorem sleep_time_bounded_and_decreasing (m n : nat) :
  (30 <= sleep_time n <= 300)%Z
  /\ ((m <= n)%nat -> (sleep_time n <= sleep_time m)%Z)
  /\ (sleep_time n = 300%Z <-> n = 0%nat).
Proof.
  unfold sleep_time.
  destruct (Nat.ltb_spec 50 n), (Nat.ltb_spec 10 n), (Nat.ltb_spec 0 n),
    (Nat.ltb_spec 50 m), (Nat.ltb_spec 10 m), (Nat.ltb_spec 0 m); lia.
Qed.

(** X14.  One cycle of [cleanup_expired_connections] on a registry with one
    session per address: it ends, every session left was seen within
    [CONNECTION_TIMEOUT] seconds of the clock reading of the cycle, the
    token map is the swept one and answers [is_token_valid] as before at
    any time from the sweep on, and the sleep interval is chosen from the
    number of sessions before the deletions. *)
Theorem cycle_evicts_and_sweeps tc tt s vt :
  registry_ok s ->
  exists s',
    cycle tc tt s vt
    = Some (s', (Tokens.clean_expired_tokens tt vt).1,
            (Tokens.clean_expired_tokens tt vt).2,
            sleep_time (length (active_connections s)))
    /\ registry_ok s'
    /\ (forall k c, get k (active_connections s') = Some c ->
          (tc - last_seen c <= CONNECTION_TIMEOUT)%Q)
    /\ (forall k now, (tt <= now)%Q ->
          Tokens.is_token_valid k now (Tokens.clean_expired_tokens tt vt).1
          = Tokens.is_token_valid k now vt).
Proof.
  intros Hok. destruct (evict_expired_ok tc s Hok) as (s' & n & Hrun & Hok').
  destruct s as [l d]. destruct Hok as (Hl & Hnd & Hlen).
  cbn [lock_held active_connections] in *. subst l.
  rewrite evict_expired_unlocked in Hrun by done. inversion Hrun; subst s' n.
  exists (State false (filter (fun e => Qgtb (tc - last_seen e.2) CONNECTION_TIMEOUT = false) d)).
  split; [|split; [exact Hok'|split]].
  - unfold cycle. rewrite evict_expired_unlocked by done. reflexivity.
  - intros k c Hg. cbn [active_connections] in Hg.
    apply get_filter in Hg as [_ Hage]; [|done]. by apply Qgtb_false.
  - intros k now Hnow. by apply clean_keeps_validity.
Qed.

Lemma cycle_evicts_and_sweeps_witness :
  exists s',
    cycle 100 100 (State false [("a", new_connection (request_from "a" 60))]) ∅
    = Some (s', (Tokens.clean_expired_tokens 100 ∅).1,
            (Tokens.clean_expired_tokens 100 ∅).2, 120%Z).
Proof.
  destruct (cycle_evicts_and_sweeps 100 100
              (State false [("a", new_connection (request_from "a" 60))]) ∅)
    as (s' & Hrun & _).
  - split; [reflexivity|]. split.
    + apply (bool_decide_unpack _). vm_compute. exact I.
    + cbn [active_connections length]. unfold MAX_CONNECTIONS. lia.
  - exists s'. exact Hrun.
Defined.

End MaintenanceFacts.

(** ** Ranges and chunks of the [/video/<path>] route *)

Section StreamMore.
Import PyStr Stream.

(** X15.  Whatever two bounds the [Range] header of an existing file parses
    to, the answer is 206 with [0 <= byte1 <= byte2]; for a file that is not
    empty [byte2] is below the size, and bounds given in the wrong order
    select the single byte [byte1].  For an empty file the answer announces
    [bytes 0-0/0] with a length of 1.  No range is ever refused.  The header
    has at most 4300 characters, so that no number in it has more digits
    than [int()] accepts. *)
Theorem range_is_clamped_into_the_file cfg fs vt now tok filename h b1 b2 :
  FS.isfile fs (file_path cfg vt now tok filename) = true ->
  h <> "" ->
  (String.length h <= 4300)%nat ->
  parse_range h (FS.getsize fs (file_path cfg vt now tok filename)) = Some (b1, b2) ->
  exists byte1 byte2,
    video cfg fs vt now tok filename (Some h)
    = Answer (Response 206 (mime_of filename)
                [("Content-Range",
                  "bytes " ++ str byte1 ++ "-" ++ str byte2 ++ "/"
                    ++ str (FS.getsize fs (file_path cfg vt now tok filename)));
                 ("Accept-Ranges", "bytes");
                 ("Content-Length", str (byte2 - byte1 + 1))]
                [])
    /\ (0 <= byte1 <= byte2)%Z
    /\ ((1 <= FS.getsize fs (file_path cfg vt now tok filename))%Z ->
        (byte2 < FS.getsize fs (file_path cfg vt now tok filename))%Z
        /\ ((b2 < b1)%Z -> byte2 = byte1))
    /\ (FS.getsize fs (file_path cfg vt now tok filename) = 0%Z ->
        byte1 = 0%Z /\ byte2 = 0%Z).
Proof.
  intros Hf Hh _ Hp. rewrite video_with_range by done. cbv zeta. rewrite Hp.
  set (size := FS.getsize fs (file_path cfg vt now tok filename)) in *.
  assert (0 <= size)%Z by (unfold size, FS.getsize; lia).
  do 2 eexists. split; [reflexivity|]. lia.
Qed.

Lemma range_is_clamped_into_the_file_witness :
  exists byte1 byte2,
    video example_settings example_fs ∅ 0 "" "a.mp4" (Some "bytes=5000-100")
    = Answer (Response 206 (mime_of "a.mp4")
                [("Content-Range",
                  "bytes " ++ str byte1 ++ "-" ++ str byte2 ++ "/"
                    ++ str (FS.getsize example_fs
                              (file_path example_settings ∅ 0 "" "a.mp4")));
                 ("Accept-Ranges", "bytes");
                 ("Content-Length", str (byte2 - byte1 + 1))]
                [])
    /\ (0 <= byte1 <= byte2)%Z.
Proof.
  destruct (range_is_clamped_into_the_file example_settings example_fs ∅ 0 "" "a.mp4"
              "bytes=5000-100" 5000 100) as (x & y & H1 & H2 & _).
  - vm_compute. reflexivity.
  - discriminate.
  - cbn [String.length]. lia.
  - vm_compute. reflexivity.
  - exists x, y. split; [exact H1 | exact H2].
Defined.

Lemma without_replace_from c old k s :
  without c s = true -> without c (replace_from old "" k s) = true.
Proof.
  revert k. induction s as [|x r IH]; intros k; cbn [without replace_from]; [done|].
  intros [Hx Hr]%andb_true_iff. destruct k as [|k]; [|by apply IH].
  destruct (String.prefix old (String x r)).
  - rewrite append_empty. by apply IH.
  - cbn [without]. by rewrite Hx, IH.
Qed.

(** X16.  A [Range] header without the character [-] makes the handler
    raise ([m[1]] does not exist) when the file exists, and gets the 404
    answer when it does not: the file is looked up before the header is
    read. *)
Theorem range_without_dash_raises cfg fs vt now tok filename h :
  h <> "" ->
  without "-" h = true ->
  video cfg fs vt now tok filename (Some h)
  = if FS.isfile fs (file_path cfg vt now tok filename) then Raised else NotFound.
Proof.
  intros Hh Hd. destruct (FS.isfile fs (file_path cfg vt now tok filename)) eqn:Hf.
  - rewrite video_with_range by done. cbv zeta. unfold parse_range, replace.
    by rewrite split_without by (by apply without_replace_from).
  - unfold video, file_path in *. cbv zeta. by rewrite Hf.
Qed.

Lemma range_without_dash_raises_witness :
  video example_settings example_fs ∅ 0 "" "a.mp4" (Some "bytes=200") = Raised.
Proof.
  exact (range_without_dash_raises example_settings example_fs ∅ 0 "" "a.mp4"
           "bytes=200" ltac:(discriminate) eq_refl).
Defined.

Lemma parse_range_suffix n size :
  (0 <= n)%Z -> parse_range ("bytes=-" ++ str n) size = Some (0%Z, n).
Proof.
  intros Hn. destruct (str_digits n Hn) as [Hd Hne].
  change ("bytes=-" ++ str n) with ("bytes=" ++ "" ++ "-" ++ str n).
  unfold parse_range. rewrite replace_bytes_prefix.
  unfold replace. rewrite replace_without by (by apply (without_b_digits "")).
  rewrite append_empty, append_cons, append_empty. cbn [split].
  rewrite Ascii.eqb_refl, split_without by (by apply digits_without).
  replace (String.eqb (str n) "") with false
    by (symmetry; by apply String.eqb_neq).
  cbn [String.eqb mbind option_bind]. by rewrite int_str.
Qed.

(** X17.  The header [bytes=-n] is not read as "the last [n] bytes": it gets
    the same answer as [bytes=0-n]. *)
Theorem suffix_range_is_read_as_prefix cfg fs vt now tok filename n :
  (0 <= n)%Z ->
  video cfg fs vt now tok filename (Some ("bytes=-" ++ str n))
  = video cfg fs vt now tok filename (Some ("bytes=" ++ str 0 ++ "-" ++ str n)).
Proof.
  intros Hn. destruct (FS.isfile fs (file_path cfg vt now tok filename)) eqn:Hf.
  - rewrite !video_with_range by done. cbv zeta.
    by rewrite parse_range_suffix, parse_range_explicit by lia.
  - unfold video, file_path in *. cbv zeta. by rewrite Hf.
Qed.

Lemma suffix_range_is_read_as_prefix_witness :
  video example_settings example_fs ∅ 0 "" "a.mp4" (Some "bytes=-99")
  = video example_settings example_fs ∅ 0 "" "a.mp4" (Some "bytes=0-99").
Proof.
  apply (suffix_range_is_read_as_prefix example_settings example_fs ∅ 0 "" "a.mp4" 99).
  lia.
Defined.



End StreamMore.

(** ** Interface names and addresses *)

Section InterfaceFacts.
Import Interfaces.
Implicit Types (m : gmap string string) (ip : string).

Lemma add_interface_cons m n (a : bool * string) addrs :
  add_interface m (n, a :: addrs)
  = add_interface (if a.1 then <[a.2 := n]> m else m) (n, addrs).
Proof. reflexivity. Qed.

Lemma add_interface_untouched m entry ip :
  (true, ip) ∉ entry.2 -> add_interface m entry !! ip = m !! ip.
Proof.
  destruct entry as [n addrs]. cbn [snd]. revert m.
  induction addrs as [|[f a] addrs IH]; intros m Hout; [done|].
  apply not_elem_of_cons in Hout as [Hne Hout].
  rewrite add_interface_cons, IH by done. cbn [fst snd].
  destruct f; [|done]. rewrite lookup_insert_ne; [done|]. congruence.
Qed.

Lemma add_interface_written m n addrs ip :
  m !! ip = Some n -> add_interface m (n, addrs) !! ip = Some n.
Proof.
  revert m. induction addrs as [|[f a] addrs IH]; intros m Hm; [done|].
  rewrite add_interface_cons. apply IH. cbn [fst snd]. destruct f; [|done].
  destruct (decide (a = ip)) as [->|Hne].
  - apply lookup_insert_eq.
  - by rewrite lookup_insert_ne.
Qed.

Lemma add_interface_has m entry ip :
  (true, ip) ∈ entry.2 -> add_interface m entry !! ip = Some entry.1.
Proof.
  destruct entry as [n addrs]. cbn [fst snd]. revert m.
  induction addrs as [|[f a] addrs IH]; intros m Hin.
  - by apply elem_of_nil in Hin.
  - rewrite add_interface_cons. apply elem_of_cons in Hin as [[= <- <-]|Hin].
    + apply add_interface_written. apply lookup_insert_eq.
    + by apply IH.
Qed.

(** The last interface that has the address gives the name. *)
Lemma rebuilt_last_wins l1 n addrs l2 ip m :
  (true, ip) ∈ addrs ->
  Forall (fun e : string * list (bool * string) => (true, ip) ∉ e.2) l2 ->
  foldl add_interface m (l1 ++ (n, addrs) :: l2)%list !! ip = Some n.
Proof.
  intros Hin Hl2. rewrite foldl_app. cbn [foldl].
  generalize (foldl add_interface m l1). intros m1.
  assert (H1 : add_interface m1 (n, addrs) !! ip = Some n)
    by (by apply (add_interface_has m1 (n, addrs))).
  revert H1. generalize (add_interface m1 (n, addrs)). clear m1.
  induction Hl2 as [|e l2 He Hl2 IH]; intros m2 H2; [done|].
  cbn [foldl]. apply IH. by rewrite add_interface_untouched.
Qed.

Lemma rebuilt_unknown l ip m :
  Forall (fun e : string * list (bool * string) => (true, ip) ∉ e.2) l ->
  foldl add_interface m l !! ip = m !! ip.
Proof.
  intros Hl. revert m. induction Hl as [|e l He Hl IH]; intros m; [done|].
  cbn [foldl]. by rewrite IH, add_interface_untouched.
Qed.

(** X19.  When [get_interface_name] rebuilds its cache (more than
    [INTERFACE_CACHE_EXPIRE] seconds after the last rebuild), the name it
    answers for an address is that of the last interface listing it as an
    IPv4 address, and the placeholder when no interface does or the
    enumeration fails.  Every call within the next
    [INTERFACE_CACHE_EXPIRE] seconds answers the same and leaves the cache
    as it is, whatever the interfaces have become. *)
Theorem interface_name_is_cached_for_a_minute interfaces interfaces' ip t1 t2 c :
  (INTERFACE_CACHE_EXPIRE < t1 - interface_cache_last_update c)%Q ->
  (t2 - t1 <= INTERFACE_CACHE_EXPIRE)%Q ->
  (get_interface_name interfaces ip t1 c).2 = Cache (rebuilt interfaces) t1
  /\ get_interface_name interfaces' ip t2 (get_interface_name interfaces ip t1 c).2
     = get_interface_name interfaces ip t1 c
  /\ (forall l1 n addrs l2,
        interfaces = Some (l1 ++ (n, addrs) :: l2)%list ->
        (true, ip) ∈ addrs ->
        Forall (fun e : string * list (bool * string) => (true, ip) ∉ e.2) l2 ->
        (get_interface_name interfaces ip t1 c).1 = n)
  /\ (match interfaces with
      | Some l => Forall (fun e : string * list (bool * string) => (true, ip) ∉ e.2) l
      | None => True
      end ->
      (get_interface_name interfaces ip t1 c).1 = "未知接口").
Proof.
  intros H1 H2.
  assert (Hr : get_interface_name interfaces ip t1 c
               = (default "未知接口" (rebuilt interfaces !! ip),
                  Cache (rebuilt interfaces) t1)).
  { unfold get_interface_name. cbv zeta.
    replace (Qgtb (t1 - interface_cache_last_update c) INTERFACE_CACHE_EXPIRE)
      with true; [done|]. symmetry. by apply Qgtb_true. }
  rewrite Hr. cbn [fst snd]. split; [done|]. split; [|split].
  - unfold get_interface_name. cbv zeta. cbn [interface_cache_last_update].
    replace (Qgtb (t2 - t1) INTERFACE_CACHE_EXPIRE) with false; [done|].
    symmetry. by apply Qgtb_false.
  - intros l1 n addrs l2 -> Hin Hl2. cbn [rebuilt].
    by rewrite (rebuilt_last_wins l1 n addrs l2 ip ∅ Hin Hl2).
  - destruct interfaces as [l|]; cbn [rebuilt].
    + intros Hl. by rewrite (rebuilt_unknown l ip ∅ Hl), lookup_empty.
    + intros _. by rewrite lookup_empty.
Qed.

Lemma interface_name_is_cached_for_a_minute_witness :
  get_interface_name None "10.0.0.5" 1030
    (get_interface_name
       (Some [("eth0", [(false, "fe80::1"); (true, "10.0.0.5")]); ("lo", [(true, "127.0.0.1")])])
       "10.0.0.5" 1000 initial_cache).2
  = ("eth0", Cache (rebuilt (Some [("eth0", [(false, "fe80::1"); (true, "10.0.0.5")]);
                                   ("lo", [(true, "127.0.0.1")])])) 1000).
Proof.
  destruct (interface_name_is_cached_for_a_minute
              (Some [("eth0", [(false, "fe80::1"); (true, "10.0.0.5")]);
                     ("lo", [(true, "127.0.0.1")])])
              None "10.0.0.5" 1000 1030 initial_cache) as (_ & -> & _).
  - vm_compute. reflexivity.
  - vm_compute. discriminate.
  - vm_compute. reflexivity.
Defined.

(** X20.  [get_all_ip_addresses] starts with the two fixed loopback entries;
    none of the addresses after them starts with [127.]; and when the
    enumeration succeeds they are exactly the IPv4 addresses of the
    interfaces that do not start with [127.]. *)
Theorem get_all_ip_addresses_skips_loopback interfaces local_ip :
  take 2 (get_all_ip_addresses interfaces local_ip)
  = [("本地回环地址", "127.0.0.1"); ("本地回环地址", "localhost")]
  /\ (forall n a, In (n, a) (drop 2 (get_all_ip_addresses interfaces local_ip)) ->
        String.prefix "127." a = false)
  /\ (forall l, interfaces = Some l ->
        forall n a, In (n, a) (drop 2 (get_all_ip_addresses interfaces local_ip))
          <-> exists addrs, In (n, addrs) l /\ In (true, a) addrs
                            /\ String.prefix "127." a = false).
Proof.
  assert (Hl : forall l n a,
            In (n, a)
              (flat_map
                 (fun entry : string * list (bool * string) =>
                    flat_map
                      (fun addr : bool * string =>
                         if addr.1 && negb (String.prefix "127." addr.2)
                         then [(entry.1, addr.2)] else [])
                      entry.2) l)
            <-> exists addrs, In (n, addrs) l /\ In (true, a) addrs
                              /\ String.prefix "127." a = false).
  { intros l n a. rewrite in_flat_map. split.
    - intros [[n' addrs] [Hin Ha]]. apply in_flat_map in Ha as [[f a'] [Ha Hx]].
      cbn [fst snd] in Hx. destruct f; cbn [andb] in Hx; [|done].
      destruct (String.prefix "127." a') eqn:E; cbn [negb] in Hx; [done|].
      destruct Hx as [[= <- <-]|[]]. eauto.
    - intros (addrs & Hin & Ha & Hp). exists (n, addrs). split; [done|].
      apply in_flat_map. exists (true, a). split; [done|].
      cbn [fst snd andb]. rewrite Hp. by left. }
  unfold get_all_ip_addresses. cbn [app take drop]. split; [done|]. split.
  - intros n a. destruct interfaces as [l|].
    + intros Hin. apply Hl in Hin as (_ & _ & _ & Hp). exact Hp.
    + destruct local_ip as [ip|]; [|done].
      destruct (String.prefix "127." ip) eqn:E; cbn [negb]; [done|].
      by intros [[= <- <-]|[]].
  - intros l ->. apply Hl.
Qed.

End InterfaceFacts.

(** ** Paths: suffixes and components *)

Section PathFacts.
Import PyStr.



Lemma append_assoc (a b c : string) : (a ++ b) ++ c = a ++ (b ++ c).
Proof.
  induction a as [|x r IH]; rewrite ?append_cons, ?append_empty; [done|].
  by rewrite IH.
Qed.

Lemma length_append (a b : string) :
  String.length (a ++ b) = (String.length a + String.length b)%nat.
Proof.
  induction a as [|x r IH]; rewrite ?append_cons, ?append_empty; cbn [String.length];
    [done|]. by rewrite IH.
Qed.

Lemma substring_all s : substring 0 (String.length s) s = s.
Proof. induction s as [|x r IH]; cbn [String.length substring]; [done|]. by rewrite IH. Qed.

Lemma substring_skip pre suf :
  substring (String.length pre) (String.length suf) (pre ++ suf) = suf.
Proof.
  induction pre as [|x r IH]; rewrite ?append_cons, ?append_empty;
    cbn [String.length substring]; [apply substring_all | done].
Qed.

Lemma substring_split s n :
  (n <= String.length s)%nat ->
  s = substring 0 n s ++ substring n (String.length s - n) s.
Proof.
  revert n. induction s as [|x r IH]; intros n Hn; cbn [String.length] in *.
  - assert (n = 0%nat) as -> by lia. reflexivity.
  - destruct n as [|n].
    + cbn [substring]. rewrite append_empty. cbn [Nat.sub]. by rewrite substring_all.
    + cbn [substring Nat.sub]. rewrite append_cons. f_equal. apply IH. lia.
Qed.

(** [s.endswith(suffix)] holds when [s] is something followed by [suffix]. *)
Lemma endswith_spec s suffix :
  endswith s suffix = true <-> exists pre, s = pre ++ suffix.
Proof.
  unfold endswith. split.
  - intros [Hk He]%andb_true_iff. apply Nat.leb_le in Hk. apply String.eqb_eq in He.
    exists (substring 0 (String.length s - String.length suffix) s).
    pose proof (substring_split s (String.length s - String.length suffix)) as Hs.
    replace (String.length s - (String.length s - String.length suffix))%nat
      with (String.length suffix) in Hs by lia.
    rewrite He in Hs. apply Hs. lia.
  - intros [pre ->]. rewrite length_append. apply andb_true_iff. split.
    + apply Nat.leb_le. lia.
    + replace (String.length pre + String.length suffix - String.length suffix)%nat
        with (String.length pre) by lia.
      rewrite substring_skip. apply String.eqb_refl.
Qed.


End PathFacts.

(** ** From the listing to the file *)

Section ListingFacts.
Import PyStr FS.
















End ListingFacts.

(** ** The listing cache and its content *)

Section CatalogMore.
Import PyStr Catalog.

Lemma cache_set_get is_secret c : cache_set is_secret (cache_get is_secret c) c = c.
Proof. by destruct is_secret, c. Qed.

Lemma cache_get_set_other is_secret e c :
  cache_get (negb is_secret) (cache_set is_secret e c) = cache_get (negb is_secret) c.
Proof. by destruct is_secret. Qed.

Lemma get_video_list_entry cfg fs is_secret force t c :
  get_video_list cfg fs is_secret force t c
  = ((entry_step cfg fs is_secret force t (cache_get is_secret c)).1,
     cache_set is_secret (entry_step cfg fs is_secret force t (cache_get is_secret c)).2 c).
Proof.
  unfold get_video_list, entry_step. cbv zeta.
  destruct (negb force && _ && _); cbn [fst snd].
  - by rewrite cache_set_get.
  - by destruct (FS.resolve fs _).
Qed.

Lemma cache_set_swap e1 e2 c :
  cache_set true e1 (cache_set false e2 c) = cache_set false e2 (cache_set true e1 c).
Proof. reflexivity. Qed.

(** X23.  The two catalogs are cached independently: listing the restricted
    catalog and then the open one gives the same two lists and the same
    cache as listing them in the other order, and a call never changes the
    entry of the other catalog. *)
Theorem catalogs_are_listed_independently cfg fs fs' f1 f2 t1 t2 c :
  let secret_first := get_video_list cfg fs true f1 t1 c in
  let open_second := get_video_list cfg fs' false f2 t2 secret_first.2 in
  let open_first := get_video_list cfg fs' false f2 t2 c in
  let secret_second := get_video_list cfg fs true f1 t1 open_first.2 in
  secret_first.1 = secret_second.1
  /\ open_second.1 = open_first.1
  /\ open_second.2 = secret_second.2
  /\ normal secret_first.2 = normal c
  /\ secret open_first.2 = secret c.
Proof.
  cbv zeta. rewrite !get_video_list_entry. cbn [fst snd cache_get cache_set secret normal].
  done.
Qed.


Lemma replace_backslash_cons c r :
  replace "\" "/" (String c r)
  = String (if Ascii.eqb c "\" then "/" else c) (replace "\" "/" r).
Proof.
  unfold replace. cbn [replace_from String.prefix String.length Nat.sub].
  destruct (ascii_dec "\" c) as [<-|Hne].
  - assert (String.prefix "" r = true) as -> by (by destruct r).
    by rewrite append_cons, append_empty.
  - assert (Ascii.eqb c "\" = false) as ->; [|done].
    apply Ascii.eqb_neq. congruence.
Qed.

Lemma replace_backslash_app a b :
  replace "\" "/" (a ++ b) = replace "\" "/" a ++ replace "\" "/" b.
Proof.
  induction a as [|c r IH]; rewrite ?append_cons, ?append_empty; [done|].
  by rewrite !replace_backslash_cons, append_cons, IH.
Qed.

Lemma without_replace_backslash s : without "\" (replace "\" "/" s) = true.
Proof.
  induction s as [|c r IH]; [done|]. rewrite replace_backslash_cons. cbn [without].
  rewrite IH, andb_true_r. by destruct (Ascii.eqb c "\") eqn:E; [|rewrite E].
Qed.

Lemma lower_app a b : lower (a ++ b) = lower a ++ lower b.
Proof.
  induction a as [|c r IH]; rewrite ?append_cons, ?append_empty; cbn [lower]; [done|].
  by rewrite append_cons, IH.
Qed.

Lemma lower_char_backslash c :
  lower_char (if Ascii.eqb c "\" then "/" else c)
  = if Ascii.eqb (lower_char c) "\" then "/"%char else lower_char c.
Proof. destruct c as [[] [] [] [] [] [] [] []]; reflexivity. Qed.

Lemma lower_replace_backslash s :
  lower (replace "\" "/" s) = replace "\" "/" (lower s).
Proof.
  induction s as [|c r IH]; [done|]. cbn [lower].
  by rewrite !replace_backslash_cons, <- IH, <- lower_char_backslash.
Qed.

Lemma join_ends_with_name d f : exists pre, FS.join d f = pre ++ f.
Proof.
  unfold FS.join. destruct (String.prefix "/" f); [by exists ""|].
  destruct (String.eqb d "" || endswith d "/"); [by exists d|].
  exists (d ++ "/"). by rewrite append_assoc.
Qed.

Lemma isascii_app a b : isascii (a ++ b) = isascii a && isascii b.
Proof.
  induction a as [|c r IH]; rewrite ?append_cons, ?append_empty; cbn [isascii]; [done|].
  by rewrite IH, andb_assoc.
Qed.

Lemma isascii_replace_backslash s :
  isascii s = true -> isascii (replace "\" "/" s) = true.
Proof.
  induction s as [|c r IH]; [done|]. rewrite replace_backslash_cons. cbn [isascii].
  intros [Hc Hr]%andb_true_iff. rewrite (IH Hr), andb_true_r.
  by destruct (Ascii.eqb c "\").
Qed.

Lemma isascii_join d f :
  isascii d = true -> isascii f = true -> isascii (FS.join d f) = true.
Proof.
  intros Hd Hf. unfold FS.join. destruct (String.prefix "/" f); [done|].
  destruct (String.eqb d "" || endswith d "/"); rewrite !isascii_app, Hd, Hf; done.
Qed.

Lemma isascii_child_rel rel name :
  isascii rel = true -> isascii name = true -> isascii (FS.child_rel rel name) = true.
Proof.
  intros Hr Hn. unfold FS.child_rel. destruct (String.eqb rel "."); [done|].
  by rewrite !isascii_app, Hr, Hn.
Qed.

Lemma ascii_names_dir es n x :
  FS.ascii_names (FS.Dir es) = true -> In (n, x) es ->
  isascii n = true /\ FS.ascii_names x = true.
Proof.
  cbn [FS.ascii_names]. rewrite forallb_forall. intros Hall Hin.
  by apply Hall, andb_true_iff in Hin.
Qed.

(** In a tree of ASCII names [os.walk] reports ASCII names only. *)
Lemma walk_ascii n :
  FS.ascii_names n = true ->
  forall rel d files f,
    isascii rel = true -> In (d, files) (FS.walk rel n) -> In f files ->
    isascii d = true /\ isascii f = true.
Proof.
  induction n as [content|es IH] using FS.node_induction; intros Hascii rel d files f Hrel.
  - cbn [FS.walk]. done.
  - cbn [FS.walk]. intros [[= <- <-]|Hin] Hf.
    + split; [done|]. unfold FS.nondirs in Hf. apply in_flat_map in Hf as [[n x] [Hin Hf]].
      cbn [fst snd] in Hf. destruct x as [content|]; [|done].
      destruct Hf as [<-|[]]. by destruct (ascii_names_dir es n _ Hascii Hin).
    + apply in_flat_map in Hin as [[name child] [Hchild Hin]]. cbn [fst snd] in Hin.
      destruct child as [content|es']; [done|].
      destruct (ascii_names_dir es name _ Hascii Hchild) as [Hname Hsub].
      rewrite Forall_forall in IH.
      apply (IH (name, FS.Dir es') (proj2 (list_elem_of_In _ _) Hchild) Hsub
               (FS.child_rel rel name) d files f); [|done|done].
      by apply isascii_child_rel.
Qed.

(** X24.  In a tree whose names are ASCII, every path [get_video_list] scans
    into a listing is ASCII, ends, letter case aside, with one of the nine
    video extensions, and contains no backslash. *)
Theorem scan_lists_video_paths top p :
  FS.ascii_names top = true ->
  In p (scan top) ->
  isascii p = true
  /\ endswith_any (lower p) video_extensions = true
  /\ without "\" p = true.
Proof.
  intros Hascii. unfold scan. rewrite in_flat_map. intros [[d files] [Hd Hp]].
  apply in_flat_map in Hp as [f [Hf Hp]]. cbn [fst snd] in Hp.
  destruct (endswith_any (lower f) video_extensions) eqn:E; [|done].
  destruct Hp as [<-|[]].
  destruct (walk_ascii top Hascii "." d files f) as [Had Haf]; [done..|].
  split; [|split; [|apply without_replace_backslash]].
  { apply isascii_replace_backslash.
    destruct (String.eqb d "."); [done | by apply isascii_join]. }
  assert (exists pre, (if String.eqb d "." then f else FS.join d f) = pre ++ f)
    as [pre ->].
  { destruct (String.eqb d "."); [by exists "" | apply join_ends_with_name]. }
  unfold endswith_any in *. apply existsb_exists in E as [ext [Hext He]].
  apply existsb_exists. exists ext. split; [done|].
  apply endswith_spec in He as [pre0 He]. apply endswith_spec.
  exists (lower (replace "\" "/" pre) ++ replace "\" "/" pre0).
  rewrite replace_backslash_app, lower_app, (lower_replace_backslash f), He,
    replace_backslash_app, append_assoc.
  do 2 f_equal. cbn in Hext.
  repeat (destruct Hext as [<-|Hext]; [reflexivity|]). done.
Qed.

Lemma scan_lists_video_paths_witness :
  isascii "sub/Clip.MKV" = true
  /\ endswith_any (lower "sub/Clip.MKV") video_extensions = true
  /\ without "\" "sub/Clip.MKV" = true.
Proof.
  apply (scan_lists_video_paths
           (FS.Dir [("notes.txt", FS.File []);
                    ("sub", FS.Dir [("Clip.MKV", FS.File [])])])).
  - vm_compute. reflexivity.
  - vm_compute. left. reflexivity.
Defined.

End CatalogMore.
